(** * Name-resolution cascade of the food-composition taxonomy script

    Shallow embedding of [code.py]: the name normalizer
    ([clean_scientific_name], [extract_genus]), the result-processing
    routine ([process_tnrs_results]) and the three-stage cascade of the
    main script, together with the properties stated about them.

    Conventions of the embedding.
    - A Python [str] is a [string]; a character is a code point in the
      range 0..255.  The predicates on characters follow CPython on that
      range ([str.strip], [\s], [str.lower]).
    - A Python value whose type the code tests with [isinstance] is a
      [pyvalue].
    - [all_results] is a [gmap string record]; each record is a fresh
      dictionary in the source, so records are never shared between keys.
    - The external service is an oracle [svc]: given the number of calls
      issued so far and the list of names sent, it yields the parsed
      response, or [None] when [query_ott_tnrs] returns [None].
    - An uncaught Python exception is an [outcome] [Raised], carrying the
      state reached when it was raised. *)

From Stdlib Require Import ZArith Ascii String List Lia.
From stdpp Require Import base option list gmap strings fin_maps.

Open Scope string_scope.
Open Scope list_scope.

(** ** Characters *)

Module Char.

Definition code (c : ascii) : nat := nat_of_ascii c.

Definition between (lo hi : nat) (c : ascii) : bool :=
  (lo <=? code c)%nat && (code c <=? hi)%nat.

(** Whitespace as [str.strip()] and the [\s] class see it, on code
    points below 256: TAB..CR, FS..US, SPACE, NEL, NBSP. *)
Definition is_space (c : ascii) : bool :=
  between 9 13 c || between 28 32 c
  || (code c =? 133)%nat || (code c =? 160)%nat.

(** [[A-Z]] *)
Definition is_upper_az (c : ascii) : bool := between 65 90 c.

(** [[a-z]] *)
Definition is_lower_az (c : ascii) : bool := between 97 122 c.

(** [\.] *)
Definition is_dot (c : ascii) : bool := (code c =? 46)%nat.

Definition eqc (d : ascii) (c : ascii) : bool := (code c =? code d)%nat.

(** [str.lower()] on one code point below 256: A-Z, and the Latin-1
    capitals 192..214 and 216..222, move up by 32. *)
Definition lower (c : ascii) : ascii :=
  if between 65 90 c || between 192 214 c || between 216 222 c
  then ascii_of_nat (code c + 32)
  else c.

End Char.

(** ** Strings *)

Fixpoint lower (s : string) : string :=
  match s with
  | "" => ""
  | String c s' => String (Char.lower c) (lower s')
  end.

Fixpoint lstrip (s : string) : string :=
  match s with
  | "" => ""
  | String c s' => if Char.is_space c then lstrip s' else s
  end.

Fixpoint rstrip (s : string) : string :=
  match s with
  | "" => ""
  | String c s' =>
      match rstrip s' with
      | "" => if Char.is_space c then "" else String c ""
      | r => String c r
      end
  end.

(** [s.strip()] *)
Definition strip (s : string) : string := rstrip (lstrip s).

Definition starts_with_space (s : string) : bool :=
  match s with
  | "" => false
  | String c _ => Char.is_space c
  end.

Fixpoint ends_with_space (s : string) : bool :=
  match s with
  | "" => false
  | String c "" => Char.is_space c
  | String _ s' => ends_with_space s'
  end.

(** [sep.join(l)] *)
Fixpoint join (sep : string) (l : list string) : string :=
  match l with
  | [] => ""
  | [x] => x
  | x :: l' => x +:+ sep +:+ join sep l'
  end.

(** ** Regular expressions

    The fragment of [re] that the pattern of [clean_scientific_name]
    uses: character classes, concatenation, alternation and repetition.
    A pattern matches at a position when some prefix of the text from
    there on belongs to its language; [matches] decides membership with
    derivatives.  The anchor [$] is handled by [match_to_end]. *)

Inductive regex : Type :=
| Void
| Eps
| Chr (p : ascii → bool)
| Cat (r1 r2 : regex)
| Alt (r1 r2 : regex)
| Star (r : regex).

Definition Plus (r : regex) : regex := Cat r (Star r).
Definition Opt (r : regex) : regex := Alt r Eps.

Fixpoint Lit (s : string) : regex :=
  match s with
  | "" => Eps
  | String c s' => Cat (Chr (Char.eqc c)) (Lit s')
  end.

Fixpoint nullable (r : regex) : bool :=
  match r with
  | Void => false
  | Eps => true
  | Chr _ => false
  | Cat r1 r2 => nullable r1 && nullable r2
  | Alt r1 r2 => nullable r1 || nullable r2
  | Star _ => true
  end.

Fixpoint deriv (c : ascii) (r : regex) : regex :=
  match r with
  | Void => Void
  | Eps => Void
  | Chr p => if p c then Eps else Void
  | Cat r1 r2 =>
      if nullable r1
      then Alt (Cat (deriv c r1) r2) (deriv c r2)
      else Cat (deriv c r1) r2
  | Alt r1 r2 => Alt (deriv c r1) (deriv c r2)
  | Star r1 => Cat (deriv c r1) (Star r1)
  end.

Fixpoint matches (r : regex) (s : string) : bool :=
  match s with
  | "" => nullable r
  | String c s' => matches (deriv c r) s'
  end.

(** The text [s] from the current position on, against [r$]: [$] holds
    at the end of the text and just before a newline that ends the text.
    The result is the text left after the match. *)
Definition newline : string := String (ascii_of_nat 10) "".

Fixpoint chop_final_newline (s : string) : option string :=
  match s with
  | "" => None
  | String c "" => if Char.eqc (ascii_of_nat 10) c then Some "" else None
  | String c s' => String c <$> chop_final_newline s'
  end.

Definition match_to_end (r : regex) (s : string) : option string :=
  if matches r s then Some ""
  else match chop_final_newline s with
       | Some s0 => if matches r s0 then Some newline else None
       | None => None
       end.

(** [re.sub(r$, '', s)]: the leftmost position where the pattern matches
    is found by scanning; the matched text is deleted.  What is left
    after the match is at most a final newline, where no further match
    of a pattern that needs two characters can begin. *)
Fixpoint re_sub_to_end (r : regex) (s : string) : string :=
  match match_to_end r s with
  | Some rest => rest
  | None =>
      match s with
      | "" => ""
      | String c s' => String c (re_sub_to_end r s')
      end
  end.

(** [re.search(r$, s) is not None] *)
Fixpoint re_search_to_end (r : regex) (s : string) : bool :=
  match match_to_end r s with
  | Some _ => true
  | None =>
      match s with
      | "" => false
      | String _ s' => re_search_to_end r s'
      end
  end.

(** ** Name normalizer *)

(** [\s+([A-Z][a-z]*\.?|Moench|L\.)$], without the anchor. *)
Definition authority_pattern : regex :=
  Cat (Plus (Chr Char.is_space))
      (Alt (Alt (Cat (Chr Char.is_upper_az)
                     (Cat (Star (Chr Char.is_lower_az)) (Opt (Chr Char.is_dot))))
                (Lit "Moench"))
           (Lit "L.")).

(** The values a name can be: the code tests [isinstance(name, str)]. *)
Inductive pyvalue : Type :=
| PyNone
| PyStr (s : string)
| PyInt (z : Z)
| PyBool (b : bool).

Definition is_str (v : pyvalue) : bool :=
  match v with PyStr _ => true | _ => false end.

(** The body of [clean_scientific_name] on a [str]. *)
Definition clean_str (name : string) : string :=
  let cleaned := re_sub_to_end authority_pattern (strip name) in
  strip cleaned.

Definition clean_scientific_name (name : pyvalue) : option string :=
  match name with
  | PyStr s => Some (clean_str s)
  | _ => None
  end.

(** [' ' in name] *)
Fixpoint has_space_char (s : string) : bool :=
  match s with
  | "" => false
  | String c s' => Char.eqc " "%char c || has_space_char s'
  end.

(** [name.split(' ', 1)[0]]: the text before the first space character. *)
Fixpoint before_first_space (s : string) : string :=
  match s with
  | "" => ""
  | String c s' => if Char.eqc " "%char c then "" else String c (before_first_space s')
  end.

Definition extract_genus_str (name : string) : option string :=
  if negb (has_space_char name) then None
  else Some (before_first_space name).

Definition extract_genus (name : pyvalue) : option string :=
  match name with
  | PyStr s => extract_genus_str s
  | _ => None
  end.

(** ** Data model *)

(** The closed set of ['Match Level'] labels. *)
Inductive match_level : Type :=
| SpeciesOriginal
| SpeciesCleaned
| Genus
| NoMatchInitial
| NoMatchFinal
| NoMatchFinalGenusFailed
| ProcessingError.

Global Instance match_level_eq_dec : EqDecision match_level.
Proof. solve_decision. Defined.

Definition level_label (l : match_level) : string :=
  match l with
  | SpeciesOriginal => "Species - Original"
  | SpeciesCleaned => "Species - Cleaned"
  | Genus => "Genus"
  | NoMatchInitial => "No Match Initial"
  | NoMatchFinal => "No Match Final"
  | NoMatchFinalGenusFailed => "No Match Final - Genus Failed"
  | ProcessingError => "Processing Error"
  end.

(** One entry of [all_results]: the eight keys of the dictionary. *)
Record record : Type := mk_record {
  matched_name : option string;      (* 'Primary Matched Name' *)
  synonyms : option string;          (* 'Synonyms' *)
  ott_id : option Z;                 (* 'OTT ID' *)
  rank : option string;              (* 'Rank' *)
  match_query : string;              (* 'Match Query' *)
  level : match_level;               (* 'Match Level' *)
  approximate : bool;                (* 'Approximate Match' *)
  is_synonym_input : bool            (* 'Is Synonym Input' *)
}.

(** [rec['Match Level'] = l] *)
Definition with_level (l : match_level) (r : record) : record :=
  mk_record (matched_name r) (synonyms r) (ott_id r) (rank r)
            (match_query r) l (approximate r) (is_synonym_input r).

(** The service's answer, as far as the code reads it.  Keys read with
    [.get] may be missing ([None]); [name], [matches] and [taxon] are
    indexed directly. *)
Record taxon : Type := mk_taxon {
  unique_name : option string;
  taxon_synonyms : option (list string);
  taxon_ott_id : option Z;
  taxon_rank : option string
}.

Record candidate : Type := mk_candidate {
  cand_taxon : taxon;
  is_approximate_match : option bool;
  is_synonym : option bool
}.

Record item : Type := mk_item {
  item_name : string;
  item_matches : list candidate
}.

(** What [query_ott_tnrs] hands to its caller: [Some items] for a body
    with a ['results'] list, [None] for a failed call and for a body that
    [process_tnrs_results] rejects. *)
Definition response : Type := option (list item).

Record world : Type := mk_world {
  all_results : gmap string record;
  calls : list (list string)          (* the name lists sent so far *)
}.

Definition set_results (d : gmap string record) (w : world) : world :=
  mk_world d (calls w).

Inductive exn : Type :=
| KeyError (k : string)
| ValueError.

Inductive outcome (A : Type) : Type :=
| Ok (a : A) (w : world)
| Raised (e : exn) (w : world).
Arguments Ok {A} a w.
Arguments Raised {A} e w.

Definition state_of {A} (o : outcome A) : world :=
  match o with Ok _ w => w | Raised _ w => w end.

Definition completed {A} (o : outcome A) : bool :=
  match o with Ok _ _ => true | Raised _ _ => false end.

(** State and exceptions of the script. *)
Definition M (A : Type) : Type := world → outcome A.

Global Instance M_ret : MRet M := λ A a w, Ok a w.
Global Instance M_bind : MBind M := λ A B f m w,
  match m w with
  | Ok a w' => f a w'
  | Raised e w' => Raised e w'
  end.

Definition raise {A} (e : exn) : M A := λ w, Raised e w.
Definition get_results : M (gmap string record) := λ w, Ok (all_results w) w.
Definition put_results (d : gmap string record) : M unit :=
  λ w, Ok () (set_results d w).

(** [for x in l: body x] *)
Fixpoint for_each {A} (l : list A) (body : A → M unit) : M unit :=
  match l with
  | [] => mret ()
  | x :: l' => body x ;; for_each l' body
  end.

(** [all_results[k]], as an expression *)
Definition lookup_record (k : string) : M record :=
  d ← get_results;
  match d !! k with
  | Some r => mret r
  | None => raise (KeyError k)
  end.

(** [all_results[k] = r] *)
Definition store_record (k : string) (r : record) : M unit :=
  d ← get_results; put_results (<[k := r]> d).

(** [all_results[k]['Match Level'] = l] *)
Definition store_level (k : string) (l : match_level) : M unit :=
  r ← lookup_record k; store_record k (with_level l r).

(** [k not in d or d[k].get('OTT ID') is None] *)
Definition lacks_id (o : option record) : bool :=
  match o with
  | None => true
  | Some r => bool_decide (ott_id r = None)
  end.

Definition record_of_match (c : candidate) (query : string) (l : match_level) : record :=
  let t := cand_taxon c in
  {| matched_name := unique_name t;
     synonyms := Some (join "; " (default [] (taxon_synonyms t)));
     ott_id := taxon_ott_id t;
     rank := taxon_rank t;
     match_query := query;
     level := l;
     approximate := default false (is_approximate_match c);
     is_synonym_input := default false (is_synonym c) |}.

Definition empty_record (query : string) (l : match_level) : record :=
  {| matched_name := None; synonyms := None; ott_id := None; rank := None;
     match_query := query; level := l;
     approximate := false; is_synonym_input := false |}.

(** ** [process_tnrs_results] *)

(** One iteration of the loop over [api_response['results']]. *)
Definition process_item (l : match_level) (query_map : option (gmap string string))
    (d : gmap string record) (it : item) : gmap string record :=
  let original_query_name := item_name it in
  let target_name :=
    match query_map with
    | Some q => if bool_decide (q = ∅) then original_query_name
                else default original_query_name (q !! original_query_name)
    | None => original_query_name
    end in
  if lacks_id (d !! target_name) then
    match item_matches it with
    | c :: _ => <[target_name := record_of_match c original_query_name l]> d
    | [] =>
        if bool_decide (l = SpeciesOriginal) && bool_decide (d !! target_name = None)
        then <[target_name := empty_record original_query_name NoMatchInitial]> d
        else d
    end
  else d.

Definition process_tnrs_results (api_response : response)
    (results_dict : gmap string record) (l : match_level)
    (query_map : option (gmap string string)) : gmap string record :=
  match api_response with
  | None => results_dict
  | Some items => foldl (process_item l query_map) results_dict items
  end.

Definition BATCH_SIZE : nat := 200.

(** [for i in range(0, n, bs)]: the start indices. *)
Definition range_step (n bs : nat) : list nat :=
  (λ k, k * bs) <$> seq 0 ((n + bs - 1) / bs).

(** The genus-stage ranks of line 173. *)
Definition genus_ranks : list string :=
  ["genus"; "family"; "order"; "class"; "phylum"; "kingdom"].

(** [taxon.get('rank', '').lower() in [...]] *)
Definition genus_rank_ok (t : taxon) : bool :=
  bool_decide (lower (default "" (taxon_rank t)) ∈ genus_ranks).

Section Cascade.

(** The service: call number and names sent, to the parsed response. *)
Variable svc : nat → list string → response.

(** [list(set(l))]: the order in which a set is listed is not fixed by
    the language; any function can stand for it here. *)
Variable set_to_list : list string → list string.

Definition query_ott_tnrs (names_list : list string) : M response :=
  λ w,
    match names_list with
    | [] => Ok None w
    | _ => Ok (svc (length (calls w)) names_list)
              (mk_world (all_results w) (calls w ++ [names_list]))
    end.

(** Lines 120-124, one batch. *)
Definition step1_batch (unique_names : list string) (bs i : nat) : M unit :=
  let batch := take bs (drop i unique_names) in
  batch_result_data ← query_ott_tnrs batch;
  d ← get_results;
  put_results (process_tnrs_results batch_result_data d SpeciesOriginal None).

Definition step1 (bs : nat) (unique_names : list string) : M unit :=
  match bs with
  | 0 => raise ValueError
  | _ => for_each (range_step (length unique_names) bs) (step1_batch unique_names bs)
  end.

(** Line 126. *)
Definition failed_after_step1 (unique_names : list string)
    (d : gmap string record) : list string :=
  filter (λ name, lacks_id (d !! name) = true) unique_names.

(** Lines 145 and 186: the lookup [all_results[name]] is unguarded. *)
Fixpoint still_failed (failed_names : list string) : M (list string) :=
  match failed_names with
  | [] => mret []
  | name :: rest =>
      r ← lookup_record name;
      t ← still_failed rest;
      mret (if bool_decide (ott_id r = None) then name :: t else t)
  end.

(** Lines 132-138. *)
Definition clean_step (acc : gmap string string * list string) (name : string)
    : gmap string string * list string :=
  match clean_scientific_name (PyStr name) with
  | Some cleaned =>
      if negb (String.eqb cleaned "") && negb (String.eqb cleaned name)
      then (<[cleaned := name]> acc.1, acc.2 ++ [cleaned])
      else acc
  | None => acc
  end.

(** Lines 130-146. *)
Definition step2 (failed_names : list string) : M (list string) :=
  let '(cleaned_names_map, names_to_query_cleaned) :=
    foldl clean_step (∅, []) failed_names in
  match names_to_query_cleaned with
  | [] => mret ()
  | _ =>
      cleaned_result_data ← query_ott_tnrs (set_to_list names_to_query_cleaned);
      d ← get_results;
      put_results (process_tnrs_results cleaned_result_data d SpeciesCleaned
                     (Some cleaned_names_map))
  end ;;
  still_failed failed_names.

(** Lines 153-160. *)
Definition genus_step (acc : gmap string (list string) * list string) (name : string)
    : gmap string (list string) * list string :=
  match extract_genus (PyStr name) with
  | Some genus =>
      if String.eqb genus "" then acc
      else
        let genera_to_query :=
          if bool_decide (genus ∈ acc.2) then acc.2 else acc.2 ++ [genus] in
        let genus_map := <[genus := default [] (acc.1 !! genus) ++ [name]]> acc.1 in
        (genus_map, genera_to_query)
  | None => acc
  end.

(** Lines 169-181, for one target of one item. *)
Definition genus_target (it : item) (target_name : string) : M unit :=
  r ← lookup_record target_name;
  if bool_decide (ott_id r = None) then
    match item_matches it with
    | c :: _ =>
        if genus_rank_ok (cand_taxon c)
        then store_record target_name (record_of_match c (item_name it) Genus)
        else mret ()
    | [] => store_level target_name NoMatchFinalGenusFailed
    end
  else mret ().

(** Lines 164-181, for one item. *)
Definition genus_item (genus_map : gmap string (list string)) (it : item) : M unit :=
  match genus_map !! item_name it with
  | Some original_names_for_genus =>
      for_each original_names_for_genus (genus_target it)
  | None => mret ()
  end.

(** Lines 187-189. *)
Definition finalize_failed (name : string) : M unit :=
  r ← lookup_record name;
  if bool_decide (level r ∈ [Genus; NoMatchFinalGenusFailed])
  then mret ()
  else store_level name NoMatchFinal.

(** Lines 149-190. *)
Definition step3 (failed_names : list string) : M unit :=
  let '(genus_map, genera_to_query) := foldl genus_step (∅, []) failed_names in
  match genera_to_query with
  | [] => mret ()
  | _ =>
      genus_result_data ← query_ott_tnrs genera_to_query;
      match genus_result_data with
      | Some items => for_each items (genus_item genus_map)
      | None => mret ()
      end
  end ;;
  failed_names' ← still_failed failed_names;
  for_each failed_names' finalize_failed.

(** Lines 198-205, one name. *)
Definition merge_name (name : string) : M unit :=
  d ← get_results;
  match d !! name with
  | None => store_record name (empty_record name ProcessingError)
  | Some r =>
      if bool_decide (ott_id r = None) && bool_decide (level r = NoMatchInitial)
      then store_level name NoMatchFinal
      else mret ()
  end.

(** Lines 193-205; [df_empty] is [df.empty]. *)
Definition merge_prepare (df_empty : bool) (unique_names : list string) : M unit :=
  d ← get_results;
  if bool_decide (d = ∅) then mret ()
  else if df_empty then mret ()
  else for_each unique_names merge_name.

(** Lines 117-190. *)
Definition stages (bs : nat) (unique_names : list string) : M unit :=
  match unique_names with
  | [] => mret ()
  | _ =>
      step1 bs unique_names ;;
      d ← get_results;
      let failed_names := failed_after_step1 unique_names d in
      failed_names ← match failed_names with
                     | [] => mret failed_names
                     | _ => step2 failed_names
                     end;
      match failed_names with
      | [] => mret ()
      | _ => step3 failed_names
      end
  end.

(** The script from line 115 to line 205. *)
Definition cascade_with (bs : nat) (df_empty : bool) (unique_names : list string)
    : M unit :=
  stages bs unique_names ;; merge_prepare df_empty unique_names.

Definition cascade : list string → M unit := cascade_with BATCH_SIZE false.

End Cascade.

Definition world0 : world := mk_world ∅ [].

(** The result map when the run completes. *)
Definition run_results (o : outcome unit) : option (gmap string record) :=
  match o with
  | Ok _ w => Some (all_results w)
  | Raised _ _ => None
  end.


(** ** Whitespace-delimited tokens

    The vocabulary in which the behaviour of [extract_genus] is described:
    the maximal runs of non-whitespace characters of a text, in order
    (what [s.split()] returns). *)




(** ** Service behaviours used in the examples *)

(** Every call fails: [query_ott_tnrs] returns [None]. *)
Definition svc_failure : nat → list string → response := λ _ _, None.

(** Every call succeeds with no candidate for any name. *)
Definition svc_no_candidates : nat → list string → response :=
  λ _ names, Some ((λ n, mk_item n []) <$> names).

Definition a_candidate (n : string) (id : Z) (rk : string) : candidate :=
  mk_candidate (mk_taxon (Some n) (Some []) (Some id) (Some rk))
               (Some false) (Some false).

(** No candidate on the first call; on the later calls one candidate of
    rank [rk] for every name sent. *)
Definition svc_hit_after_first (rk : string) : nat → list string → response :=
  λ k names,
    match k with
    | 0 => Some ((λ n, mk_item n []) <$> names)
    | _ => Some ((λ n, mk_item n [a_candidate n 42 rk]) <$> names)
    end.

Fixpoint digits (fuel n : nat) (acc : string) : string :=
  match fuel with
  | 0 => acc
  | S fuel' =>
      let acc' := String (ascii_of_nat (48 + n mod 10)) acc in
      if (n <? 10)%nat then acc' else digits fuel' (n / 10) acc'
  end.

(** [count] distinct names ["Sp0 x L."], ["Sp1 x L."], ..., each with an
    authority that cleaning removes. *)
Definition numbered_names (count : nat) : list string :=
  (λ i, "Sp" +:+ digits 10 i "" +:+ " x L.") <$> seq 0 count.

(** ** Reasoning about the script's state

    The only writes the script makes to [all_results] replace the entry of
    a key that is missing or whose record has no identifier. *)

Inductive update (d : gmap string record) : gmap string record → Prop :=
| update_store (k : string) (r : record) :
    lacks_id (d !! k) = true → update d (<[k := r]> d).

Definition grows (w w' : world) : Prop :=
  rtc update (all_results w) (all_results w').

(** [m], started in a state where [P] holds, only makes such writes, and
    when it completes its result and final state satisfy [Q]. *)
Definition guarded {A} (P : world → Prop) (m : M A) (Q : A → world → Prop) : Prop :=
  ∀ w, P w →
       grows w (state_of (m w))
       ∧ match m w with
         | Ok a w' => Q a w'
         | Raised _ _ => True
         end.

(** The names of [l] all have a record, and none of them an identifier. *)
Definition unresolved (l : list string) (w : world) : Prop :=
  ∀ x, x ∈ l → ∃ r, all_results w !! x = Some r ∧ ott_id r = None.

(** Every name of [l] has a record. *)
Definition recorded (l : list string) (w : world) : Prop :=
  ∀ x, x ∈ l → is_Some (all_results w !! x).

(** The name lists that stage 1 sends, in order. *)
Definition step1_batches (bs : nat) (unique_names : list string) : list (list string) :=
  (λ i, take bs (drop i unique_names)) <$> range_step (length unique_names) bs.

(** [m] issues no service call. *)
Definition quiet {A} (m : M A) : Prop :=
  ∀ w, calls (state_of (m w)) = calls w.

(** A state in which one name is already resolved. *)
Definition resolved_maize : record :=
  {| matched_name := Some "Zea mays"; synonyms := Some "";
     ott_id := Some 605194%Z; rank := Some "species";
     match_query := "Zea mays"; level := SpeciesOriginal;
     approximate := false; is_synonym_input := false |}.

Definition world_with_maize : world :=
  mk_world {[ "Zea mays" := resolved_maize ]} [].

(** A state in which one name has a record without identifier. *)
Definition world_with_unmatched : world :=
  mk_world {[ "Oryza sativa L." := empty_record "Oryza sativa L." NoMatchInitial ]} [].

(** [m], started in a state where [P] holds, completes, and its result
    and final state satisfy [Q]. *)
Definition total {A} (P : world → Prop) (m : M A) (Q : A → world → Prop) : Prop :=
  ∀ w, P w → ∃ a w', m w = Ok a w' ∧ Q a w'.

(** ** Stage 3 seen from one name

    What lines 169-181 do to the record of a target of [it], and what
    lines 186-189 then do to it. *)

Definition genus_effect (it : item) (r : record) : record :=
  if bool_decide (ott_id r = None) then
    match item_matches it with
    | c :: _ =>
        if genus_rank_ok (cand_taxon c)
        then record_of_match c (item_name it) Genus
        else r
    | [] => with_level NoMatchFinalGenusFailed r
    end
  else r.

Definition final_level (r : record) : record :=
  if bool_decide (level r ∈ [Genus; NoMatchFinalGenusFailed]) then r
  else with_level NoMatchFinal r.

Definition final_effect (r : record) : record :=
  if bool_decide (ott_id r = None) then final_level r else r.

(** The items of the genus response that concern genus [g], applied in
    order. *)
Definition genus_items_effect (g : string) (items : list item) (r : record) : record :=
  foldl (λ r it, if bool_decide (item_name it = g) then genus_effect it r else r)
        r items.

(** The record of a name of genus [g] after stage 3, from its record [r]
    before and the response to the genus call. *)
Definition stage3_effect (g : string) (resp : response) (r : record) : record :=
  final_effect (genus_items_effect g (default [] resp) r).

(** The names of [failed_names] have a record, and [t] has [r]. *)
Definition tracked (failed_names : list string) (t : string) (r : record)
    (w : world) : Prop :=
  recorded failed_names w ∧ all_results w !! t = Some r.

(** What lines 153-160 have built after the names [seen]: every name
    filed under a genus has that genus, every name with a genus is filed,
    and every genus filed is queued for the query. *)
Definition genus_map_ok (acc : gmap string (list string) * list string)
    (seen : list string) : Prop :=
  (∀ g l x, acc.1 !! g = Some l → x ∈ l →
            extract_genus (PyStr x) = Some g ∧ x ∈ seen)
  ∧ (∀ x g, x ∈ seen → extract_genus (PyStr x) = Some g → g ≠ "" →
            ∃ l, acc.1 !! g = Some l ∧ x ∈ l)
  ∧ (∀ g, is_Some (acc.1 !! g) → g ∈ acc.2).

(** ** How a run ends *)

(** A record is settled when it has an identifier or its level is one of
    those that lines 186-189 leave or assign. *)
Definition settled (r : record) : Prop :=
  ott_id r = None → level r ∈ [Genus; NoMatchFinalGenusFailed; NoMatchFinal].

Definition all_settled (l : list string) (w : world) : Prop :=
  ∀ x, x ∈ l → ∃ r, all_results w !! x = Some r ∧ settled r.



(** ** The authority pattern in words *)

Fixpoint all_chars (p : ascii → bool) (s : string) : bool :=
  match s with
  | "" => true
  | String c s' => p c && all_chars p s'
  end.

(** A capital letter, lower-case letters, and possibly a dot. *)
Definition authority_token (tok : string) : Prop :=
  ∃ c lows dot,
    tok = String c (lows +:+ dot)
    ∧ Char.is_upper_az c = true
    ∧ all_chars Char.is_lower_az lows = true
    ∧ (dot = "" ∨ dot = ".").

(** Whitespace, at least one character of it, then an authority token. *)
Definition authority_suffix (s : string) : Prop :=
  ∃ ws tok,
    s = ws +:+ tok
    ∧ ws ≠ "" ∧ all_chars Char.is_space ws = true
    ∧ authority_token tok.

(** ** Around the cascade: the names read and the rows written *)

(** [Series.unique()]: the values in order of first appearance. *)
Fixpoint first_occurrences (l : list string) : list string :=
  match l with
  | [] => []
  | x :: l' => x :: filter (λ y, y ≠ x) (first_occurrences l')
  end.

(** Lines 100-101, from the column as [astype(str)] leaves it (line 99):
    [replace('nan', '')] on whole values, [dropna()] (no value is missing
    among texts), [unique()], then the comprehension. *)
Definition load_unique_names (column : list string) : list string :=
  let replaced := (λ v, if String.eqb v "nan" then "" else v) <$> column in
  let unique := first_occurrences replaced in
  filter (λ name, name ≠ "" ∧ lower name ≠ "nan") unique.


Section Script.

Variable svc : nat → list string → response.
Variable set_to_list : list string → list string.


End Script.

(** ** Responses cut down to their first candidates *)

Definition first_only (it : item) : item :=
  mk_item (item_name it) (take 1 (item_matches it)).

Definition with_first_only (svc : nat → list string → response)
    : nat → list string → response :=
  λ k names, fmap (M := option) (fmap (M := list) first_only) (svc k names).

(** A state after stage 1: one call sent, one name without identifier. *)
Definition world_after_stage1 : world :=
  mk_world {[ "Oryza sativa L." := empty_record "Oryza sativa L." NoMatchInitial ]}
           [["Oryza sativa L."]].

(** * Properties *)

Example clean_ex1 : clean_str "Oryza sativa L." = "Oryza sativa".
Proof. vm_compute. reflexivity. Qed.
Example clean_ex2 : clean_str "Sorghum bicolor (L.) Moench" = "Sorghum bicolor (L.)".
Proof. vm_compute. reflexivity. Qed.
Example clean_ex3 : clean_str "  Mangifera indica  " = "Mangifera indica".
Proof. vm_compute. reflexivity. Qed.
Example clean_ex4 : clean_str "Foo bar Baz" = "Foo bar".
Proof. vm_compute. reflexivity. Qed.
Example clean_ex5 : clean_str "Foo   Linn." = "Foo".
Proof. vm_compute. reflexivity. Qed.
Example genus_ex1 : extract_genus_str "Oryza sativa L." = Some "Oryza".
Proof. vm_compute. reflexivity. Qed.
Example genus_ex2 : extract_genus_str "Oryza" = None.
Proof. vm_compute. reflexivity. Qed.



(** ** Stripping *)

Lemma lstrip_no_leading (s : string) : starts_with_space (lstrip s) = false.
Proof.
  induction s as [|c s IH]; simpl; [done|].
  destruct (Char.is_space c) eqn:E; [done|]. simpl. exact E.
Qed.

Lemma rstrip_no_trailing (s : string) : ends_with_space (rstrip s) = false.
Proof.
  induction s as [|c s IH]; simpl; [done|].
  destruct (rstrip s) as [|c' r] eqn:E.
  - destruct (Char.is_space c) eqn:Ec; simpl; [done|exact Ec].
  - exact IH.
Qed.

Lemma rstrip_keeps_head (s : string) :
  starts_with_space s = false → starts_with_space (rstrip s) = false.
Proof.
  destruct s as [|c s]; simpl; [done|]. intros Hc.
  destruct (rstrip s); [rewrite Hc|]; simpl; done.
Qed.

Lemma strip_no_leading (s : string) : starts_with_space (strip s) = false.
Proof. apply rstrip_keeps_head, lstrip_no_leading. Qed.

Lemma strip_no_trailing (s : string) : ends_with_space (strip s) = false.
Proof. apply rstrip_no_trailing. Qed.

Lemma lstrip_fixed (s : string) : starts_with_space s = false → lstrip s = s.
Proof. destruct s as [|c s]; simpl; [done|]. by intros ->. Qed.

Lemma rstrip_fixed (s : string) : ends_with_space s = false → rstrip s = s.
Proof.
  induction s as [|c s IH]; simpl; [done|].
  destruct s as [|c' s'].
  - simpl. by intros ->.
  - intros H. rewrite (IH H). done.
Qed.

Lemma strip_fixed (s : string) :
  starts_with_space s = false → ends_with_space s = false → strip s = s.
Proof. intros H1 H2. unfold strip. rewrite (lstrip_fixed _ H1). by apply rstrip_fixed. Qed.

Lemma strip_strip (s : string) : strip (strip s) = strip s.
Proof. apply strip_fixed; [apply strip_no_leading | apply strip_no_trailing]. Qed.

Lemma lstrip_length (s : string) : (String.length (lstrip s) ≤ String.length s)%nat.
Proof. induction s as [|c s IH]; simpl; [done|]. destruct (Char.is_space c); simpl; lia. Qed.

Lemma rstrip_length (s : string) : (String.length (rstrip s) ≤ String.length s)%nat.
Proof.
  induction s as [|c s IH]; simpl; [done|].
  destruct (rstrip s) as [|c' r]; [destruct (Char.is_space c)|]; simpl in *; lia.
Qed.

Lemma strip_length (s : string) : (String.length (strip s) ≤ String.length s)%nat.
Proof.
  unfold strip. etrans; [apply rstrip_length | apply lstrip_length].
Qed.

(** ** Substitution at the end of the text *)

Lemma chop_final_newline_length (s s0 : string) :
  chop_final_newline s = Some s0 → String.length s = S (String.length s0).
Proof.
  revert s0. induction s as [|c s IH]; intros s0; simpl; [done|].
  destruct s as [|c' s'].
  - destruct (Char.eqc _ c); [|done]. by intros [= <-].
  - destruct (chop_final_newline (String c' s')) as [t|] eqn:E; simpl; [|done].
    intros [= <-]. simpl. f_equal. by apply IH.
Qed.

Lemma match_to_end_shorter (r : regex) (s rest : string) :
  nullable r = false → match_to_end r s = Some rest →
  (String.length rest < String.length s)%nat.
Proof.
  intros Hn. unfold match_to_end.
  destruct (matches r s) eqn:Hm.
  - intros [= <-]. destruct s; simpl in *; [congruence|lia].
  - destruct (chop_final_newline s) as [s0|] eqn:Hc; [|done].
    destruct (matches r s0) eqn:Hm0; [|done]. intros [= <-].
    rewrite (chop_final_newline_length _ _ Hc).
    destruct s0; simpl in *; [congruence|lia].
Qed.

Lemma re_sub_no_match (r : regex) (s : string) :
  re_search_to_end r s = false → re_sub_to_end r s = s.
Proof.
  induction s as [|c s IH]; simpl.
  - by destruct (match_to_end r "").
  - destruct (match_to_end r (String c s)); [done|]. intros H. by rewrite IH.
Qed.

Lemma re_sub_match_shorter (r : regex) (s : string) :
  nullable r = false → re_search_to_end r s = true →
  (String.length (re_sub_to_end r s) < String.length s)%nat.
Proof.
  intros Hn. induction s as [|c s IH]; simpl.
  - destruct (match_to_end r "") eqn:E; [|done].
    intros _. by apply (match_to_end_shorter r "" s).
  - destruct (match_to_end r (String c s)) eqn:E.
    + intros _. by apply (match_to_end_shorter r (String c s) s0).
    + intros H. simpl. specialize (IH H). lia.
Qed.

(** Nothing more to substitute in what a match leaves behind. *)
Lemma re_sub_rest_stable (s rest : string) :
  match_to_end authority_pattern s = Some rest →
  re_sub_to_end authority_pattern rest = rest.
Proof.
  unfold match_to_end. destruct (matches _ s); [by intros [= <-]|].
  destruct (chop_final_newline s) as [s0|]; [|done].
  destruct (matches _ s0); [|done]. by intros [= <-].
Qed.

(** ** The name normalizer *)

Lemma authority_pattern_not_nullable : nullable authority_pattern = false.
Proof. reflexivity. Qed.

Lemma clean_str_stripped (s : string) : strip (clean_str s) = clean_str s.
Proof. apply strip_strip. Qed.

(** C10. For every text, the empty one and those of whitespace only
    included, [clean_scientific_name] returns a text, and that text neither
    begins nor ends with whitespace; it returns nothing exactly when its
    argument is not a text. *)
Theorem clean_returns_stripped_text (v : pyvalue) :
  (clean_scientific_name v = None ↔ is_str v = false) ∧
  (∀ s, v = PyStr s →
        ∃ t, clean_scientific_name v = Some t
             ∧ starts_with_space t = false ∧ ends_with_space t = false).
Proof.
  split.
  - destruct v; simpl; split; congruence.
  - intros s ->. exists (clean_str s). split; [done|]. split.
    + apply strip_no_leading.
    + apply strip_no_trailing.
Qed.

Lemma clean_returns_stripped_text_witness :
  clean_scientific_name (PyStr "   ") = Some ""
  ∧ clean_scientific_name (PyStr "") = Some ""
  ∧ ∃ t, clean_scientific_name (PyStr " Zea mays L. ") = Some t
         ∧ starts_with_space t = false ∧ ends_with_space t = false.
Proof.
  split; [vm_compute; reflexivity|]. split; [vm_compute; reflexivity|].
  exact (proj2 (clean_returns_stripped_text (PyStr " Zea mays L. ")) _ eq_refl).
Defined.

(** C4, as stated, fails: a name with two trailing authority tokens loses
    one of them at each cleaning. *)
Lemma clean_not_idempotent :
  clean_scientific_name (PyStr "Brassica juncea L. Czern.") = Some "Brassica juncea L."
  ∧ clean_scientific_name (PyStr "Brassica juncea L.") = Some "Brassica juncea"
  ∧ ¬ (∀ x : string, clean_str (clean_str x) = clean_str x).
Proof.
  split; [vm_compute; reflexivity|]. split; [vm_compute; reflexivity|].
  intros H. specialize (H "Brassica juncea L. Czern."). vm_compute in H. discriminate H.
Qed.

(** C4, amended. Cleaning removes one trailing authority token, so
    cleaning twice gives the same text as cleaning once exactly when the
    cleaned text does not itself end in whitespace followed by such a
    token. *)
Theorem clean_idempotent_iff (x : string) :
  clean_str (clean_str x) = clean_str x
  ↔ re_search_to_end authority_pattern (clean_str x) = false.
Proof.
  split.
  - intros Heq. destruct (re_search_to_end _ (clean_str x)) eqn:Hs; [|done].
    exfalso.
    pose proof (re_sub_match_shorter _ _ authority_pattern_not_nullable Hs) as Hlt.
    assert (Hle : (String.length (clean_str (clean_str x))
                   ≤ String.length (re_sub_to_end authority_pattern (clean_str x)))%nat).
    { unfold clean_str at 1. rewrite clean_str_stripped. apply strip_length. }
    rewrite Heq in Hle. lia.
  - intros Hs. unfold clean_str at 1. rewrite clean_str_stripped.
    rewrite (re_sub_no_match _ _ Hs). apply clean_str_stripped.
Qed.

(** ** Genus extraction *)



Lemma has_space_char_split (s : string) :
  has_space_char s = true →
  ∃ rest, s = before_first_space s +:+ " " +:+ rest.
Proof.
  induction s as [|c s IH]; simpl; [done|].
  destruct (Char.eqc " " c) eqn:E; simpl.
  - intros _. exists s. f_equal.
    unfold Char.eqc, Char.code in E. apply Nat.eqb_eq in E.
    rewrite <- (ascii_nat_embedding c), E. reflexivity.
  - intros H. destruct (IH H) as [rest Hr]. exists rest.
    change (String c s = String c (before_first_space s +:+ " " +:+ rest)). by f_equal.
Qed.







(** ** Guarded writes *)

Lemma bind_run {A B} (m : M A) (f : A → M B) (w : world) :
  (m ≫= f) w = match m w with
               | Ok a w' => f a w'
               | Raised e w' => Raised e w'
               end.
Proof. reflexivity. Qed.

Lemma update_keeps_resolved d d' n r :
  update d d' → d !! n = Some r → ott_id r ≠ None → d' !! n = Some r.
Proof.
  intros [k r' Hk] Hn Hid. destruct (decide (k = n)) as [->|Hne].
  - rewrite Hn in Hk. simpl in Hk. by apply bool_decide_eq_true in Hk.
  - by rewrite lookup_insert_ne.
Qed.

Lemma update_keeps_recorded d d' n :
  update d d' → is_Some (d !! n) → is_Some (d' !! n).
Proof.
  intros [k r' Hk] Hn. destruct (decide (k = n)) as [->|Hne].
  - rewrite lookup_insert_eq. eauto.
  - by rewrite lookup_insert_ne.
Qed.

Lemma grows_keeps_resolved w w' n r :
  grows w w' → all_results w !! n = Some r → ott_id r ≠ None →
  all_results w' !! n = Some r.
Proof.
  unfold grows. induction 1 as [|d1 d2 d3 H12 _ IH]; [done|].
  intros Hn Hid. apply IH; [|done]. by eapply update_keeps_resolved.
Qed.

Lemma grows_keeps_recorded w w' l : grows w w' → recorded l w → recorded l w'.
Proof.
  unfold grows, recorded. induction 1 as [|d1 d2 d3 H12 _ IH]; [done|].
  intros Hl. apply IH. intros x Hx. eapply update_keeps_recorded; eauto.
Qed.

Lemma grows_refl w : grows w w.
Proof. by unfold grows. Qed.

Lemma grows_trans w1 w2 w3 : grows w1 w2 → grows w2 w3 → grows w1 w3.
Proof. unfold grows. intros. by etrans. Qed.

Lemma grows_same_results w w' : all_results w' = all_results w → grows w w'.
Proof. unfold grows. by intros ->. Qed.

Lemma guarded_ret {A} (P : world → Prop) (a : A) (Q : A → world → Prop) :
  (∀ w, P w → Q a w) → guarded P (mret a) Q.
Proof. intros H w Hw. split; [apply grows_refl | by apply H]. Qed.

Lemma guarded_raise {A} (P : world → Prop) (e : exn) (Q : A → world → Prop) :
  guarded P (raise e) Q.
Proof. intros w _. split; [apply grows_refl | done]. Qed.

Lemma guarded_bind {A B} (P : world → Prop) (m : M A) (Q1 : A → world → Prop)
    (f : A → M B) (Q : B → world → Prop) :
  guarded P m Q1 → (∀ a, guarded (Q1 a) (f a) Q) → guarded P (m ≫= f) Q.
Proof.
  intros Hm Hf w Hw. rewrite bind_run.
  destruct (Hm w Hw) as [Hg HQ]. destruct (m w) as [a w'|e w']; simpl in *.
  - destruct (Hf a w' HQ) as [Hg' HQ']. split; [by eapply grows_trans | done].
  - done.
Qed.

Lemma guarded_weaken {A} (P P' : world → Prop) (m : M A) (Q Q' : A → world → Prop) :
  guarded P m Q → (∀ w, P' w → P w) → (∀ a w, Q a w → Q' a w) → guarded P' m Q'.
Proof.
  intros Hm HP HQ w Hw. destruct (Hm w (HP w Hw)) as [Hg Hq]. split; [done|].
  destruct (m w); [by apply HQ | done].
Qed.

Lemma guarded_for_each {A} (I : world → Prop) (l : list A) (body : A → M unit) :
  (∀ x, x ∈ l → guarded I (body x) (λ _, I)) →
  guarded I (for_each l body) (λ _, I).
Proof.
  induction l as [|x l IH]; intros Hb; simpl.
  - by apply guarded_ret.
  - eapply guarded_bind.
    + apply Hb. left.
    + intros ?. apply IH. intros y Hy. apply Hb. by right.
Qed.

Lemma guarded_get (P : world → Prop) :
  guarded P get_results (λ d w, P w ∧ d = all_results w).
Proof. intros w Hw. split; [apply grows_refl | done]. Qed.

Lemma guarded_lookup (P : world → Prop) (k : string) :
  guarded P (lookup_record k) (λ r w, P w ∧ all_results w !! k = Some r).
Proof.
  intros w Hw. unfold lookup_record. rewrite bind_run. simpl.
  destruct (all_results w !! k) eqn:E; simpl; (split; [apply grows_refl | done]).
Qed.

(** A write to a key without identifier, keeping [Q]. *)
Lemma guarded_store (P : world → Prop) (k : string) (r : record) (Q : world → Prop) :
  (∀ w, P w → lacks_id (all_results w !! k) = true) →
  (∀ w, P w → Q (set_results (<[k := r]> (all_results w)) w)) →
  guarded P (store_record k r) (λ _, Q).
Proof.
  intros Hl HQ w Hw. unfold store_record. rewrite bind_run. simpl. split.
  - unfold grows. simpl. apply rtc_once. constructor. by apply Hl.
  - by apply HQ.
Qed.

Lemma guarded_store_level (P : world → Prop) (k : string) (l : match_level)
    (Q : world → Prop) :
  (∀ w, P w → lacks_id (all_results w !! k) = true) →
  (∀ w r, P w → all_results w !! k = Some r →
          Q (set_results (<[k := with_level l r]> (all_results w)) w)) →
  guarded P (store_level k l) (λ _, Q).
Proof.
  intros Hl HQ. unfold store_level. eapply guarded_bind; [apply guarded_lookup|].
  intros r. apply guarded_store.
  - intros w [Hw _]. by apply Hl.
  - intros w [Hw Hr]. by apply HQ.
Qed.

(** ** [process_tnrs_results] only makes guarded writes *)

Lemma process_item_update l q d it : rtc update d (process_item l q d it).
Proof.
  unfold process_item.
  set (t := match q with
            | Some q0 => if bool_decide (q0 = ∅) then item_name it
                         else default (item_name it) (q0 !! item_name it)
            | None => item_name it
            end).
  destruct (lacks_id (d !! t)) eqn:Hl; [|done].
  destruct (item_matches it) as [|c cs].
  - destruct (bool_decide (l = SpeciesOriginal) && bool_decide (d !! t = None)); [|done].
    apply rtc_once. by constructor.
  - apply rtc_once. by constructor.
Qed.

Lemma process_tnrs_results_update resp d l q :
  rtc update d (process_tnrs_results resp d l q).
Proof.
  destruct resp as [items|]; simpl; [|done].
  revert d. induction items as [|it items IH]; intros d; simpl; [done|].
  etrans; [apply process_item_update | apply IH].
Qed.

Lemma guarded_process (P : world → Prop) resp l q (Q : world → Prop) :
  (∀ w, P w → Q (set_results (process_tnrs_results resp (all_results w) l q) w)) →
  guarded P (d ← get_results; put_results (process_tnrs_results resp d l q)) (λ _, Q).
Proof.
  intros HQ w Hw. rewrite bind_run. simpl. split.
  - unfold grows. simpl. apply process_tnrs_results_update.
  - by apply HQ.
Qed.

Section CascadeFacts.

Variable svc : nat → list string → response.
Variable set_to_list : list string → list string.

Lemma query_run (names : list string) (w : world) :
  ∃ r cs, query_ott_tnrs svc names w = Ok r (mk_world (all_results w) cs).
Proof. unfold query_ott_tnrs. destruct w, names; simpl; eauto. Qed.

Lemma guarded_query (P : world → Prop) (names : list string) :
  (∀ w cs, P w → P (mk_world (all_results w) cs)) →
  guarded P (query_ott_tnrs svc names) (λ _, P).
Proof.
  intros HP w Hw. destruct (query_run names w) as (r & cs & ->). simpl. split.
  - by apply grows_same_results.
  - by apply HP.
Qed.

Lemma recorded_calls l w cs : recorded l w → recorded l (mk_world (all_results w) cs).
Proof. done. Qed.

Lemma unresolved_calls l w cs :
  unresolved l w → unresolved l (mk_world (all_results w) cs).
Proof. done. Qed.

Lemma still_failed_run (l : list string) (w : world) :
  match still_failed l w with
  | Ok t w' => w' = w ∧ recorded l w ∧ unresolved t w ∧ (∀ x, x ∈ t → x ∈ l)
  | Raised _ w' => w' = w
  end.
Proof.
  induction l as [|n l IH]; simpl.
  - split; [done|]. split; [intros x Hx; by apply elem_of_nil in Hx|].
    split; [intros x Hx; by apply elem_of_nil in Hx | done].
  - rewrite bind_run. unfold lookup_record. rewrite bind_run. simpl.
    destruct (all_results w !! n) as [r|] eqn:En; simpl; [|done].
    rewrite bind_run. destruct (still_failed l w) as [t w'|e w']; [|done].
    destruct IH as (-> & Hrec & Hun & Hsub). simpl.
    split; [done|]. split; [|split].
    + intros x [->|Hx]%elem_of_cons; [eauto | by apply Hrec].
    + intros x Hx. case_bool_decide as Hid.
      * apply elem_of_cons in Hx as [->|Hx]; [eauto | by apply Hun].
      * by apply Hun.
    + intros x Hx. case_bool_decide.
      * apply elem_of_cons in Hx as [->|Hx]; [left | right; by apply Hsub].
      * right. by apply Hsub.
Qed.

Lemma guarded_still_failed (P : world → Prop) (l : list string) :
  guarded P (still_failed l)
          (λ t w, P w ∧ recorded l w ∧ unresolved t w ∧ (∀ x, x ∈ t → x ∈ l)).
Proof.
  intros w Hw. pose proof (still_failed_run l w) as H.
  destruct (still_failed l w) as [t w'|e w']; simpl.
  - destruct H as (-> & ?). split; [apply grows_refl | done].
  - subst. split; [apply grows_refl | done].
Qed.

(** *** Stage 1 *)

Lemma guarded_step1_batch names bs i :
  guarded (λ _, True) (step1_batch svc names bs i) (λ _ _, True).
Proof.
  unfold step1_batch. eapply guarded_bind.
  - by apply guarded_query.
  - intros r. by apply guarded_process.
Qed.

Lemma guarded_step1 bs names :
  guarded (λ _, True) (step1 svc bs names) (λ _ _, True).
Proof.
  unfold step1. destruct bs as [|bs]; [apply guarded_raise|].
  apply guarded_for_each. intros i _. apply guarded_step1_batch.
Qed.

Lemma guarded_frame_recorded {A} (P : world → Prop) (m : M A)
    (Q : A → world → Prop) (l : list string) :
  guarded P m Q →
  guarded (λ w, P w ∧ recorded l w) m (λ a w, Q a w ∧ recorded l w).
Proof.
  intros Hm w [Hw Hl]. destruct (Hm w Hw) as [Hg HQ]. split; [done|].
  destruct (m w) as [a w'|e w']; [|done]. simpl in Hg.
  split; [done|]. by eapply grows_keeps_recorded.
Qed.

(** *** Stage 2 *)

Lemma guarded_step2 (failed_names : list string) :
  guarded (λ _, True) (step2 svc set_to_list failed_names)
          (λ t w, recorded failed_names w ∧ unresolved t w).
Proof.
  unfold step2. destruct (foldl clean_step (∅, []) failed_names) as [cmap names].
  eapply guarded_bind with (Q1 := λ _ _, True).
  - destruct names as [|n names]; [by apply guarded_ret|].
    eapply guarded_bind; [by apply guarded_query|].
    intros r. by apply guarded_process.
  - intros ?. eapply guarded_weaken; [apply (guarded_still_failed (λ _, True))| |].
    + done.
    + simpl. intros t w (_ & ? & ? & _). done.
Qed.

(** *** Stage 3 *)

Lemma guarded_genus_target (it : item) (target_name : string) :
  guarded (λ _, True) (genus_target it target_name) (λ _ _, True).
Proof.
  unfold genus_target. eapply guarded_bind; [apply guarded_lookup|].
  intros r. simpl. case_bool_decide as Hid; [|by apply guarded_ret].
  assert (Hl : ∀ w, True ∧ all_results w !! target_name = Some r →
                    lacks_id (all_results w !! target_name) = true).
  { intros w [_ ->]. simpl. by apply bool_decide_eq_true. }
  destruct (item_matches it) as [|c cs].
  - by apply guarded_store_level.
  - destruct (genus_rank_ok (cand_taxon c)); [|by apply guarded_ret].
    by apply guarded_store.
Qed.

Lemma guarded_genus_item genus_map (it : item) :
  guarded (λ _, True) (genus_item genus_map it) (λ _ _, True).
Proof.
  unfold genus_item. destruct (genus_map !! item_name it) as [targets|];
    [|by apply guarded_ret].
  apply guarded_for_each. intros t _. apply guarded_genus_target.
Qed.

Lemma unresolved_with_level t x l r w :
  unresolved t w → all_results w !! x = Some r → ott_id r = None →
  unresolved t (set_results (<[x := with_level l r]> (all_results w)) w).
Proof.
  intros Hun Hx Hid y Hy. simpl. destruct (decide (x = y)) as [->|Hne].
  - rewrite lookup_insert_eq. eauto.
  - rewrite lookup_insert_ne by done. by apply Hun.
Qed.

Lemma guarded_finalize_failed (t : list string) (name : string) :
  name ∈ t →
  guarded (unresolved t) (finalize_failed name) (λ _, unresolved t).
Proof.
  intros Hin. unfold finalize_failed.
  eapply guarded_bind; [apply guarded_lookup|].
  intros r. simpl. case_bool_decide; [apply guarded_ret; by intros w [? _]|].
  apply guarded_store_level.
  - intros w [Hun Hr]. destruct (Hun _ Hin) as (r' & Hr' & Hid).
    rewrite Hr'. simpl. by apply bool_decide_eq_true.
  - intros w r' [Hun Hr] Hr'. destruct (Hun _ Hin) as (r'' & Hr'' & Hid).
    apply unresolved_with_level; [done..|congruence].
Qed.

Lemma guarded_step3 (failed_names : list string) :
  guarded (λ _, True) (step3 svc failed_names) (λ _ _, True).
Proof.
  unfold step3. destruct (foldl genus_step (∅, []) failed_names) as [gm genera].
  eapply guarded_bind with (Q1 := λ _ _, True).
  - destruct genera as [|g genera]; [by apply guarded_ret|].
    eapply guarded_bind; [by apply guarded_query|].
    intros [items|]; [|by apply guarded_ret].
    apply guarded_for_each. intros it _. apply guarded_genus_item.
  - intros ?. eapply guarded_bind; [apply (guarded_still_failed (λ _, True))|].
    intros t. simpl.
    eapply guarded_weaken; [apply (guarded_for_each (unresolved t))| |].
    + intros x Hx. by apply guarded_finalize_failed.
    + by intros w (_ & _ & ? & _).
    + done.
Qed.

(** *** Lines 193-205 *)

Lemma guarded_merge_name (name : string) :
  guarded (λ _, True) (merge_name name) (λ _ _, True).
Proof.
  unfold merge_name. eapply guarded_bind; [apply guarded_get|].
  intros d. simpl. destruct (d !! name) as [r|] eqn:Hd.
  - destruct (bool_decide (ott_id r = None)) eqn:Hid; simpl; [|by apply guarded_ret].
    destruct (bool_decide (level r = NoMatchInitial)); [|by apply guarded_ret].
    apply guarded_store_level; [|done].
    intros w [_ ->]. rewrite Hd. done.
  - apply guarded_store; [|done]. intros w [_ ->]. by rewrite Hd.
Qed.

Lemma guarded_merge_prepare df_empty (unique_names : list string) :
  guarded (λ _, True) (merge_prepare df_empty unique_names) (λ _ _, True).
Proof.
  unfold merge_prepare. eapply guarded_bind with (Q1 := λ _ _, True).
  - intros w _. split; [apply grows_refl | done].
  - intros d. case_bool_decide; [by apply guarded_ret|].
    destruct df_empty; [by apply guarded_ret|].
    apply guarded_for_each. intros x _. apply guarded_merge_name.
Qed.

(** *** The whole run *)

Lemma guarded_stages bs (unique_names : list string) :
  guarded (λ _, True) (stages svc set_to_list bs unique_names)
          (λ _, recorded unique_names).
Proof.
  unfold stages. destruct unique_names as [|n0 names0] eqn:En.
  { apply guarded_ret. intros w _ x Hx. by apply elem_of_nil in Hx. }
  rewrite <- En. clear En n0 names0.
  eapply guarded_bind; [apply guarded_step1|]. intros ?.
  eapply guarded_bind; [apply guarded_get|]. intros d. simpl.
  set (failed := failed_after_step1 unique_names d).
  set (done_names := filter (λ name, lacks_id (d !! name) = false) unique_names).
  assert (Hsplit : ∀ w, recorded failed w → recorded done_names w →
                        recorded unique_names w).
  { intros w Hf Hd x Hx. destruct (lacks_id (d !! x)) eqn:E.
    - apply Hf. by apply list_elem_of_filter.
    - apply Hd. by apply list_elem_of_filter. }
  assert (Hdone : ∀ w, True ∧ d = all_results w → recorded done_names w).
  { intros w [_ ->] x [Hx _]%list_elem_of_filter.
    destruct (all_results w !! x); [eauto | done]. }
  eapply guarded_bind with (Q1 := λ t w, recorded unique_names w).
  - revert Hsplit. generalize failed. intros fl Hsplit.
    destruct fl as [|f fs].
    + apply guarded_ret. intros w Hw. apply Hsplit; [|by apply Hdone].
      intros x Hx. by apply elem_of_nil in Hx.
    + eapply guarded_weaken.
      * apply (guarded_frame_recorded (λ _, True) _ _ done_names
                 (guarded_step2 (f :: fs))).
      * intros w Hw. split; [done | by apply Hdone].
      * simpl. intros t w [[Hf _] Hd]. by apply Hsplit.
  - intros t. destruct t as [|t0 ts]; [by apply guarded_ret|].
    eapply guarded_weaken.
    + apply (guarded_frame_recorded (λ _, True) _ _ unique_names
               (guarded_step3 (t0 :: ts))).
    + done.
    + simpl. by intros _ w [_ ?].
Qed.

Lemma guarded_cascade_with bs df_empty (unique_names : list string) :
  guarded (λ _, True) (cascade_with svc set_to_list bs df_empty unique_names)
          (λ _, recorded unique_names).
Proof.
  unfold cascade_with. eapply guarded_bind; [apply guarded_stages|].
  intros ?. eapply guarded_weaken.
  - apply (guarded_frame_recorded (λ _, True) _ _ unique_names
             (guarded_merge_prepare df_empty unique_names)).
  - done.
  - simpl. by intros _ w [_ ?].
Qed.

End CascadeFacts.

(** ** The claims about the cascade *)

(** When the run completes, every input name has a record. *)
Lemma cascade_completed_records_all svc set_to_list bs df_empty
    (unique_names : list string) (w w' : world) :
  cascade_with svc set_to_list bs df_empty unique_names w = Ok () w' →
  ∀ n, n ∈ unique_names → is_Some (all_results w' !! n).
Proof.
  intros Hrun.
  destruct (guarded_cascade_with svc set_to_list bs df_empty unique_names w I)
    as [_ Hq].
  rewrite Hrun in Hq. exact Hq.
Qed.

(** C1. A failed stage-1 batch leaves its names without a record, the
    unguarded lookup of line 145 raises [KeyError], and the run ends
    before any record exists: the invariant "one record per input name"
    is not reached when a batch fails. *)
Theorem failed_batch_leaves_no_record :
  cascade svc_failure remove_dups ["Oryza sativa"] world0
  = Raised (KeyError "Oryza sativa") (mk_world ∅ [["Oryza sativa"]])
  ∧ run_results (cascade svc_failure remove_dups ["Oryza sativa"] world0) = None.
Proof. split; vm_compute; reflexivity. Qed.

(** C2. A failed call is not treated as a call without candidates: with
    no candidates the run completes and the name gets its record, with a
    failed call the same input raises [KeyError] at line 145. *)
Theorem failure_differs_from_no_candidates :
  completed (cascade svc_no_candidates remove_dups ["Oryza sativa"] world0) = true
  ∧ (all_results (state_of (cascade svc_no_candidates remove_dups ["Oryza sativa"] world0))
       !! "Oryza sativa"
     = Some (empty_record "Oryza sativa" NoMatchFinalGenusFailed))
  ∧ completed (cascade svc_failure remove_dups ["Oryza sativa"] world0) = false
  ∧ all_results (state_of (cascade svc_failure remove_dups ["Oryza sativa"] world0))
      !! "Oryza sativa" = None.
Proof. repeat split; vm_compute; reflexivity. Qed.

(** C3. A record that has an identifier is left as it is by everything
    that runs afterwards: a batch of stage 1, the rest of stage 1, stage 2,
    stage 3, the final pass, and the whole run begun from any state;
    this for every service behaviour, also when the run raises. *)
Theorem resolved_record_is_kept svc set_to_list bs df_empty
    (unique_names failed_names : list string) (i : nat) (it : item)
    (w : world) (n : string) (r : record) :
  all_results w !! n = Some r → ott_id r ≠ None →
  all_results (state_of (step1_batch svc unique_names bs i w)) !! n = Some r
  ∧ all_results (state_of (step1 svc bs unique_names w)) !! n = Some r
  ∧ all_results (state_of (step2 svc set_to_list failed_names w)) !! n = Some r
  ∧ all_results (state_of (genus_target it n w)) !! n = Some r
  ∧ all_results (state_of (step3 svc failed_names w)) !! n = Some r
  ∧ all_results (state_of (merge_prepare df_empty unique_names w)) !! n = Some r
  ∧ all_results (state_of (cascade_with svc set_to_list bs df_empty unique_names w))
      !! n = Some r.
Proof.
  intros Hn Hid.
  assert (Hk : ∀ {A} (m : M A) (Q : A → world → Prop),
             guarded (λ _, True) m Q → all_results (state_of (m w)) !! n = Some r).
  { intros A m Q Hm. destruct (Hm w I) as [Hg _]. by eapply grows_keeps_resolved. }
  repeat split.
  - eapply Hk, guarded_step1_batch.
  - eapply Hk, guarded_step1.
  - eapply Hk, guarded_step2.
  - eapply Hk, guarded_genus_target.
  - eapply Hk, guarded_step3.
  - eapply Hk, guarded_merge_prepare.
  - eapply Hk, guarded_cascade_with.
Qed.

Lemma resolved_record_is_kept_witness :
  all_results (state_of (cascade_with (svc_hit_after_first "genus") remove_dups 1 false
                           ["Oryza sativa L."; "Zea mays"] world_with_maize))
    !! "Zea mays" = Some resolved_maize.
Proof.
  refine (proj2 (proj2 (proj2 (proj2 (proj2 (proj2
    (resolved_record_is_kept (svc_hit_after_first "genus") remove_dups 1 false
       ["Oryza sativa L."; "Zea mays"] [] 0 (mk_item "Zea" [])
       world_with_maize "Zea mays" resolved_maize _ _))))))).
  - vm_compute. reflexivity.
  - discriminate.
Defined.

(** C5. Two failed names with the same cleaned form: one query is sent for
    it, but [cleaned_names_map] keeps the last of the two names only, so
    the match is recorded for that one and the other stays unmatched. *)
Theorem cleaned_match_reaches_last_name_only :
  let o := cascade (svc_hit_after_first "species") remove_dups
                   ["Oryza sativa L."; "Oryza sativa Linn."] world0 in
  clean_str "Oryza sativa L." = "Oryza sativa"
  ∧ clean_str "Oryza sativa Linn." = "Oryza sativa"
  ∧ completed o = true
  ∧ calls (state_of o)
    = [["Oryza sativa L."; "Oryza sativa Linn."]; ["Oryza sativa"]; ["Oryza"]]
  ∧ (level <$> all_results (state_of o) !! "Oryza sativa Linn.") = Some SpeciesCleaned
  ∧ (ott_id <$> all_results (state_of o) !! "Oryza sativa Linn.") = Some (Some 42%Z)
  ∧ (level <$> all_results (state_of o) !! "Oryza sativa L.") = Some NoMatchFinal
  ∧ (ott_id <$> all_results (state_of o) !! "Oryza sativa L.") = Some None.
Proof. repeat split; vm_compute; reflexivity. Qed.

(** ** The genus stage, one target at a time *)

Lemma genus_target_run (it : item) (t : string) (r : record) (w : world) :
  all_results w !! t = Some r → ott_id r = None →
  genus_target it t w
  = match item_matches it with
    | c :: _ =>
        if genus_rank_ok (cand_taxon c)
        then Ok () (set_results (<[t := record_of_match c (item_name it) Genus]>
                                   (all_results w)) w)
        else Ok () w
    | [] => Ok () (set_results (<[t := with_level NoMatchFinalGenusFailed r]>
                                 (all_results w)) w)
    end.
Proof.
  intros Hr Hid. unfold genus_target, lookup_record.
  rewrite !bind_run. simpl. rewrite Hr. simpl.
  rewrite bool_decide_eq_true_2 by done.
  destruct (item_matches it) as [|c cs].
  - unfold store_level, lookup_record. rewrite !bind_run. simpl. rewrite Hr. reflexivity.
  - destruct (genus_rank_ok (cand_taxon c)); reflexivity.
Qed.

Lemma genus_rank_ok_iff (t : taxon) :
  genus_rank_ok t = true
  ↔ ∃ rk, taxon_rank t = Some rk ∧ lower rk ∈ genus_ranks.
Proof.
  unfold genus_rank_ok. rewrite bool_decide_eq_true. split.
  - destruct (taxon_rank t) as [rk|]; simpl; [eauto|].
    intros H. exfalso. revert H. unfold genus_ranks.
    rewrite !elem_of_cons, elem_of_nil. intros H. repeat destruct H as [H|H]; done.
  - intros (rk & -> & H). done.
Qed.

(** C6. At the genus stage the first candidate of an item is recorded for
    a target without identifier exactly when the lower-cased rank of its
    taxon is one of genus, family, order, class, phylum, kingdom.  When it
    is, the target's record becomes the candidate's, with level [Genus] and
    the genus sent as [match_query]; when it is not, nothing changes. *)
Theorem genus_stage_acceptance (it : item) (t : string) (c : candidate)
    (cs : list candidate) (r : record) (w : world) :
  all_results w !! t = Some r → ott_id r = None → item_matches it = c :: cs →
  let accepted := ∃ rk, taxon_rank (cand_taxon c) = Some rk ∧ lower rk ∈ genus_ranks in
  (accepted →
     ∃ r', genus_target it t w = Ok () (set_results (<[t := r']> (all_results w)) w)
           ∧ level r' = Genus
           ∧ match_query r' = item_name it
           ∧ ott_id r' = taxon_ott_id (cand_taxon c)
           ∧ matched_name r' = unique_name (cand_taxon c)
           ∧ rank r' = taxon_rank (cand_taxon c))
  ∧ (¬ accepted → genus_target it t w = Ok () w).
Proof.
  intros Hr Hid Hm accepted. rewrite (genus_target_run it t r w Hr Hid), Hm.
  split.
  - intros Hacc%genus_rank_ok_iff. rewrite Hacc.
    eexists. split; [reflexivity|]. done.
  - intros Hno. destruct (genus_rank_ok (cand_taxon c)) eqn:E; [|done].
    by apply genus_rank_ok_iff in E.
Qed.

Lemma genus_stage_acceptance_witness :
  genus_target (mk_item "Oryza" [a_candidate "Oryza sativa" 42 "species"])
               "Oryza sativa L." world_with_unmatched
  = Ok () world_with_unmatched
  ∧ ∃ r', genus_target (mk_item "Oryza" [a_candidate "Poaceae" 7 "Family"])
                       "Oryza sativa L." world_with_unmatched
          = Ok () (set_results (<["Oryza sativa L." := r']>
                                  (all_results world_with_unmatched))
                               world_with_unmatched)
          ∧ level r' = Genus ∧ match_query r' = "Oryza".
Proof.
  split.
  - refine (proj2 (genus_stage_acceptance
             (mk_item "Oryza" [a_candidate "Oryza sativa" 42 "species"])
             "Oryza sativa L." _ [] _ world_with_unmatched _ _ eq_refl) _).
    + vm_compute. reflexivity.
    + reflexivity.
    + intros (rk & [= <-] & H). vm_compute in H.
      repeat (apply elem_of_cons in H as [H|H]; [discriminate H|]).
      by apply elem_of_nil in H.
  - destruct (proj1 (genus_stage_acceptance
             (mk_item "Oryza" [a_candidate "Poaceae" 7 "Family"])
             "Oryza sativa L." _ [] _ world_with_unmatched
             ltac:(vm_compute; reflexivity) eq_refl eq_refl))
      as (r' & Hrun & Hl & Hq & _).
    + exists "Family". split; [reflexivity|]. vm_compute. right. left.
    + exists r'. done.
Defined.

(** Line 181 alone: when the genus item has no candidate and the target's
    record has no identifier, the record keeps every field but its level,
    and the records of the other names are untouched. *)
Lemma genus_target_no_candidate (it : item) (t : string)
    (r : record) (w : world) :
  all_results w !! t = Some r → ott_id r = None → item_matches it = [] →
  ∃ w' r',
    genus_target it t w = Ok () w'
    ∧ all_results w' !! t = Some r'
    ∧ level r' = NoMatchFinalGenusFailed
    ∧ match_query r' = match_query r
    ∧ matched_name r' = matched_name r
    ∧ synonyms r' = synonyms r
    ∧ ott_id r' = ott_id r
    ∧ rank r' = rank r
    ∧ approximate r' = approximate r
    ∧ is_synonym_input r' = is_synonym_input r
    ∧ (∀ k, k ≠ t → all_results w' !! k = all_results w !! k)
    ∧ calls w' = calls w.
Proof.
  intros Hr Hid Hm. rewrite (genus_target_run it t r w Hr Hid), Hm.
  eexists _, _. split; [reflexivity|]. simpl. rewrite lookup_insert_eq.
  split; [reflexivity|]. repeat split.
  intros k Hk. by rewrite lookup_insert_ne.
Qed.

(** ** The names sent per call *)

Lemma range_step_lt (n bs i : nat) : i ∈ range_step n bs → (i < n)%nat.
Proof.
  unfold range_step. intros (k & -> & Hk)%list_elem_of_fmap.
  apply elem_of_seq in Hk as [_ Hk]. simpl in Hk.
  destruct bs as [|bs]; [simpl in Hk; lia|].
  pose proof (Nat.Div0.mul_div_le (n + S bs - 1) (S bs)). nia.
Qed.

Lemma range_step_covers (n bs : nat) :
  (0 < bs)%nat → (n ≤ (n + bs - 1) / bs * bs)%nat.
Proof.
  intros Hbs. pose proof (Nat.mul_succ_div_gt (n + bs - 1) bs ltac:(lia)). nia.
Qed.

Lemma chunks_concat (bs m : nat) (l : list string) :
  concat ((λ i, take bs (drop i l)) <$> ((λ k, k * bs)%nat <$> seq 0 m))
  = take (m * bs) l.
Proof.
  induction m as [|m IH]; [done|].
  rewrite seq_S, !fmap_app, concat_app, IH. simpl. rewrite app_nil_r.
  rewrite take_take_drop. f_equal. lia.
Qed.

Lemma step1_batches_concat (bs : nat) (names : list string) :
  (0 < bs)%nat → concat (step1_batches bs names) = names.
Proof.
  intros Hbs. unfold step1_batches, range_step. rewrite chunks_concat.
  apply take_ge. by apply range_step_covers.
Qed.

Lemma step1_batches_sizes (bs : nat) (names : list string) :
  (0 < bs)%nat →
  Forall (λ b, (1 ≤ length b ≤ bs)%nat) (step1_batches bs names).
Proof.
  intros Hbs. apply Forall_forall. intros b (i & -> & Hi)%list_elem_of_fmap.
  apply range_step_lt in Hi. rewrite length_take, length_drop. lia.
Qed.

Lemma step1_batch_run svc (names : list string) (bs i : nat) (w : world) :
  (0 < bs)%nat → (i < length names)%nat →
  ∃ d, step1_batch svc names bs i w
       = Ok () (mk_world d (calls w ++ [take bs (drop i names)])).
Proof.
  intros Hbs Hi. unfold step1_batch, query_ott_tnrs. rewrite bind_run.
  destruct (take bs (drop i names)) as [|x b] eqn:E.
  - apply (f_equal length) in E. rewrite length_take, length_drop in E.
    simpl in E. lia.
  - rewrite bind_run. simpl. eauto.
Qed.

Lemma step1_loop_run svc (names : list string) (bs : nat) (idx : list nat) (w : world) :
  (0 < bs)%nat → (∀ i, i ∈ idx → (i < length names)%nat) →
  ∃ d, for_each idx (step1_batch svc names bs) w
       = Ok () (mk_world d (calls w ++ ((λ i, take bs (drop i names)) <$> idx))).
Proof.
  intros Hbs. revert w. induction idx as [|i idx IH]; intros w Hidx; simpl.
  - exists (all_results w). rewrite app_nil_r. by destruct w.
  - rewrite bind_run.
    destruct (step1_batch_run svc names bs i w Hbs) as [d ->]; [apply Hidx; left|].
    destruct (IH (mk_world d (calls w ++ [take bs (drop i names)]))) as [d' ->].
    { intros j Hj. apply Hidx. by right. }
    exists d'. simpl. by rewrite <- app_assoc.
Qed.

Lemma step1_run svc (bs : nat) (names : list string) (w : world) :
  (0 < bs)%nat →
  ∃ d, step1 svc bs names w
       = Ok () (mk_world d (calls w ++ step1_batches bs names)).
Proof.
  intros Hbs. unfold step1. destruct bs as [|bs]; [lia|].
  apply step1_loop_run; [done|]. intros i. apply range_step_lt.
Qed.

(** *** Steps that send nothing *)

Lemma quiet_ret {A} (a : A) : quiet (mret a).
Proof. done. Qed.

Lemma quiet_bind {A B} (m : M A) (f : A → M B) :
  quiet m → (∀ a, quiet (f a)) → quiet (m ≫= f).
Proof.
  intros Hm Hf w. rewrite bind_run. specialize (Hm w).
  destruct (m w) as [a w'|e w']; simpl in *; [|done]. by rewrite Hf.
Qed.

Lemma quiet_for_each {A} (l : list A) (body : A → M unit) :
  (∀ x, quiet (body x)) → quiet (for_each l body).
Proof.
  intros Hb. induction l as [|x l IH]; simpl; [apply quiet_ret|].
  apply quiet_bind; [apply Hb | done].
Qed.

Lemma quiet_lookup (k : string) : quiet (lookup_record k).
Proof. intros w. unfold lookup_record. rewrite bind_run. simpl. by destruct (_ !! k). Qed.

Lemma quiet_store (k : string) (r : record) : quiet (store_record k r).
Proof. done. Qed.

Lemma quiet_store_level (k : string) (l : match_level) : quiet (store_level k l).
Proof. apply quiet_bind; [apply quiet_lookup | intros r; apply quiet_store]. Qed.

Lemma quiet_process resp l q :
  quiet (d ← get_results; put_results (process_tnrs_results resp d l q)).
Proof. done. Qed.

Lemma quiet_still_failed (l : list string) : quiet (still_failed l).
Proof.
  intros w. pose proof (still_failed_run l w) as H.
  destruct (still_failed l w); simpl; [by destruct H as [-> _] | by subst].
Qed.

Lemma quiet_genus_target (it : item) (t : string) : quiet (genus_target it t).
Proof.
  apply quiet_bind; [apply quiet_lookup|]. intros r.
  case_bool_decide; [|apply quiet_ret].
  destruct (item_matches it) as [|c cs]; [apply quiet_store_level|].
  destruct (genus_rank_ok _); [apply quiet_store | apply quiet_ret].
Qed.

Lemma quiet_genus_item gm (it : item) : quiet (genus_item gm it).
Proof.
  unfold genus_item. destruct (gm !! item_name it); [|apply quiet_ret].
  apply quiet_for_each. intros t. apply quiet_genus_target.
Qed.

Lemma quiet_finalize_failed (name : string) : quiet (finalize_failed name).
Proof.
  apply quiet_bind; [apply quiet_lookup|]. intros r.
  case_bool_decide; [apply quiet_ret | apply quiet_store_level].
Qed.

(** What one call adds to the log: nothing for an empty list. *)
Lemma query_calls svc (names : list string) (w : world) :
  calls (state_of (query_ott_tnrs svc names w))
  = calls w ++ match names with [] => [] | _ => [names] end.
Proof. unfold query_ott_tnrs. destruct names; simpl; [by rewrite app_nil_r | done]. Qed.

Lemma query_then_quiet {A} svc (names : list string) (f : response → M A) (w : world) :
  (∀ r, quiet (f r)) →
  calls (state_of ((query_ott_tnrs svc names ≫= f) w))
  = calls w ++ match names with [] => [] | _ => [names] end.
Proof.
  intros Hf. rewrite bind_run. pose proof (query_calls svc names w) as Hq.
  destruct (query_ott_tnrs svc names w) as [r w'|e w'] eqn:E; simpl in *.
  - by rewrite Hf.
  - done.
Qed.

Lemma then_quiet {A B} (m : M A) (f : A → M B) (w : world) :
  (∀ a, quiet (f a)) →
  calls (state_of ((m ≫= f) w)) = calls (state_of (m w)).
Proof.
  intros Hf. rewrite bind_run. destruct (m w) as [a w'|e w']; simpl; [apply Hf | done].
Qed.

Lemma step2_calls svc set_to_list (failed_names : list string) (w : world) :
  calls (state_of (step2 svc set_to_list failed_names w))
  = calls w ++ match (foldl clean_step (∅, []) failed_names).2 with
               | [] => []
               | cleaned => match set_to_list cleaned with
                            | [] => []
                            | _ => [set_to_list cleaned]
                            end
               end.
Proof.
  unfold step2. destruct (foldl clean_step (∅, []) failed_names) as [cmap names].
  rewrite then_quiet by (intros; apply quiet_still_failed). simpl.
  destruct names as [|n names]; [simpl; by rewrite app_nil_r|].
  apply query_then_quiet. intros r. apply quiet_process.
Qed.

Lemma step3_calls svc (failed_names : list string) (w : world) :
  calls (state_of (step3 svc failed_names w))
  = calls w ++ match (foldl genus_step (∅, []) failed_names).2 with
               | [] => []
               | genera => [genera]
               end.
Proof.
  unfold step3. destruct (foldl genus_step (∅, []) failed_names) as [gm genera].
  rewrite then_quiet.
  2:{ intros ?. apply quiet_bind; [apply quiet_still_failed|].
      intros t. apply quiet_for_each. intros x. apply quiet_finalize_failed. }
  simpl. destruct genera as [|g genera]; [simpl; by rewrite app_nil_r|].
  apply query_then_quiet. intros [items|]; [|apply quiet_ret].
  apply quiet_for_each. intros it. apply quiet_genus_item.
Qed.

(** C8, as stated, fails: with the default batch size and 201 names that
    stage 1 leaves unmatched and cleaning changes, stage 2 sends all 201
    cleaned names in one call (and stage 3 all the genera in one call). *)
Lemma cleaned_call_exceeds_batch_size :
  let o := cascade svc_no_candidates remove_dups (numbered_names 201) world0 in
  length <$> calls (state_of o) = [200; 1; 201; 201]
  ∧ ¬ Forall (λ names, (length names ≤ BATCH_SIZE)%nat) (calls (state_of o)).
Proof.
  assert (H : length <$> calls (state_of
                (cascade svc_no_candidates remove_dups (numbered_names 201) world0))
              = [200; 1; 201; 201]) by (vm_compute; reflexivity).
  split; [exact H|].
  intros HF. apply (Forall_fmap _ (λ k, (k ≤ BATCH_SIZE)%nat)) in HF.
  rewrite H in HF. unfold BATCH_SIZE in HF.
  apply Forall_cons in HF as [_ HF]. apply Forall_cons in HF as [_ HF].
  apply Forall_cons in HF as [HF _]. lia.
Qed.

(** C8, amended. Stage 1 sends the names in consecutive batches of at
    least one and at most [bs] names each, and completes.  Stage 2 sends
    at most one call, holding every distinct cleaned name, and stage 3 at
    most one call, holding every distinct genus: the batch size does not
    bound these two. *)
Theorem stage1_calls_within_batch_size svc set_to_list (bs : nat)
    (unique_names failed_names : list string) (w : world) :
  (0 < bs)%nat →
  (∃ d, step1 svc bs unique_names w
        = Ok () (mk_world d (calls w ++ step1_batches bs unique_names)))
  ∧ Forall (λ batch, (1 ≤ length batch ≤ bs)%nat) (step1_batches bs unique_names)
  ∧ concat (step1_batches bs unique_names) = unique_names
  ∧ calls (state_of (step2 svc set_to_list failed_names w))
    = calls w ++ match (foldl clean_step (∅, []) failed_names).2 with
                 | [] => []
                 | cleaned => match set_to_list cleaned with
                              | [] => []
                              | _ => [set_to_list cleaned]
                              end
                 end
  ∧ calls (state_of (step3 svc failed_names w))
    = calls w ++ match (foldl genus_step (∅, []) failed_names).2 with
                 | [] => []
                 | genera => [genera]
                 end.
Proof.
  intros Hbs. split; [by apply step1_run|].
  split; [by apply step1_batches_sizes|].
  split; [by apply step1_batches_concat|].
  split; [apply step2_calls | apply step3_calls].
Qed.

Lemma stage1_calls_within_batch_size_witness :
  (∃ d, step1 svc_no_candidates 2 ["Zea mays"; "Oryza sativa L."; "Cocos nucifera"] world0
        = Ok () (mk_world d [["Zea mays"; "Oryza sativa L."]; ["Cocos nucifera"]]))
  ∧ calls (state_of (step2 svc_no_candidates remove_dups
                       ["Oryza sativa L."; "Oryza sativa Linn."] world0))
    = [["Oryza sativa"]].
Proof.
  pose proof (stage1_calls_within_batch_size svc_no_candidates remove_dups 2
                ["Zea mays"; "Oryza sativa L."; "Cocos nucifera"]
                ["Oryza sativa L."; "Oryza sativa Linn."] world0 ltac:(lia))
    as (H1 & _ & _ & H2 & _).
  split; [exact H1|]. rewrite H2. vm_compute. reflexivity.
Defined.

(** ** Stage 3, followed for one name *)

Lemma total_ret {A} (P : world → Prop) (a : A) (Q : A → world → Prop) :
  (∀ w, P w → Q a w) → total P (mret a) Q.
Proof. intros H w Hw. exists a, w. split; [done | by apply H]. Qed.

Lemma total_bind {A B} (P : world → Prop) (m : M A) (Q1 : A → world → Prop)
    (f : A → M B) (Q : B → world → Prop) :
  total P m Q1 → (∀ a, total (Q1 a) (f a) Q) → total P (m ≫= f) Q.
Proof.
  intros Hm Hf w Hw. destruct (Hm w Hw) as (a & w1 & Hrun & Hq1).
  destruct (Hf a w1 Hq1) as (b & w2 & Hrun2 & Hq).
  exists b, w2. split; [|done]. by rewrite bind_run, Hrun.
Qed.

Lemma total_weaken {A} (P P' : world → Prop) (m : M A) (Q Q' : A → world → Prop) :
  total P m Q → (∀ w, P' w → P w) → (∀ a w, Q a w → Q' a w) → total P' m Q'.
Proof.
  intros Hm HP HQ w Hw. destruct (Hm w (HP w Hw)) as (a & w' & ? & ?).
  exists a, w'. split; [done | by apply HQ].
Qed.

Lemma recorded_insert l k r w :
  recorded l w → recorded l (set_results (<[k := r]> (all_results w)) w).
Proof.
  intros Hl x Hx. simpl. destruct (decide (k = x)) as [->|Hne].
  - rewrite lookup_insert_eq. eauto.
  - rewrite lookup_insert_ne by done. by apply Hl.
Qed.

Lemma tracked_insert_other l t r k r' w :
  k ≠ t → tracked l t r w →
  tracked l t r (set_results (<[k := r']> (all_results w)) w).
Proof.
  intros Hne [Hl Ht]. split; [by apply recorded_insert|].
  simpl. by rewrite lookup_insert_ne.
Qed.

Lemma tracked_insert_same l t r r' w :
  tracked l t r w → tracked l t r' (set_results (<[t := r']> (all_results w)) w).
Proof.
  intros [Hl Ht]. split; [by apply recorded_insert|].
  simpl. by rewrite lookup_insert_eq.
Qed.

Lemma genus_target_run_resolved (it : item) (t : string) (r : record) (w : world) :
  all_results w !! t = Some r → ott_id r ≠ None → genus_target it t w = Ok () w.
Proof.
  intros Hr Hid. unfold genus_target, lookup_record.
  rewrite !bind_run. simpl. rewrite Hr. simpl.
  by rewrite bool_decide_eq_false_2.
Qed.

Lemma genus_effect_idem (it : item) (r : record) :
  genus_effect it (genus_effect it r) = genus_effect it r.
Proof.
  unfold genus_effect. destruct (bool_decide (ott_id r = None)) eqn:E.
  - destruct (item_matches it) as [|c cs].
    + simpl. by rewrite E.
    + destruct (genus_rank_ok (cand_taxon c)) eqn:Ek.
      * simpl. by destruct (bool_decide (taxon_ott_id (cand_taxon c) = None)).
      * by rewrite E.
  - by rewrite E.
Qed.

Lemma final_level_idem (r : record) : final_level (final_level r) = final_level r.
Proof.
  unfold final_level. destruct (bool_decide (level r ∈ _)) eqn:E; [by rewrite E|].
  reflexivity.
Qed.

Section OneName.

Variable failed_names : list string.
Variable t : string.

Lemma total_genus_target (it : item) (x : string) (r : record) :
  x ∈ failed_names →
  total (tracked failed_names t r) (genus_target it x)
        (λ _, tracked failed_names t
                (if bool_decide (x = t) then genus_effect it r else r)).
Proof.
  intros Hx w [Hl Ht]. destruct (Hl x Hx) as [rx Hrx].
  destruct (decide (x = t)) as [->|Hne].
  - rewrite (bool_decide_eq_true_2 (t = t)) by done.
    assert (rx = r) as -> by congruence. unfold genus_effect.
    destruct (decide (ott_id r = None)) as [Hid|Hid].
    + rewrite (genus_target_run it t r w Hrx Hid).
      rewrite (bool_decide_eq_true_2 (ott_id r = None)) by done.
      destruct (item_matches it) as [|c cs].
      * eexists (), _. split; [done|].
        exact (tracked_insert_same _ _ _ _ _ (conj Hl Ht)).
      * destruct (genus_rank_ok (cand_taxon c)).
        -- eexists (), _. split; [done|].
           exact (tracked_insert_same _ _ _ _ _ (conj Hl Ht)).
        -- by eexists (), _.
    + rewrite (genus_target_run_resolved it t r w Hrx Hid).
      rewrite (bool_decide_eq_false_2 (ott_id r = None)) by done.
      by eexists (), _.
  - rewrite (bool_decide_eq_false_2 (x = t)) by done.
    destruct (decide (ott_id rx = None)) as [Hid|Hid].
    + rewrite (genus_target_run it x rx w Hrx Hid).
      destruct (item_matches it) as [|c cs].
      * eexists (), _. split; [done|].
        exact (tracked_insert_other _ _ _ _ _ _ Hne (conj Hl Ht)).
      * destruct (genus_rank_ok (cand_taxon c)).
        -- eexists (), _. split; [done|].
           exact (tracked_insert_other _ _ _ _ _ _ Hne (conj Hl Ht)).
        -- by eexists (), _.
    + rewrite (genus_target_run_resolved it x rx w Hrx Hid).
      by eexists (), _.
Qed.

Lemma total_genus_targets (it : item) (targets : list string) (r : record) :
  (∀ x, x ∈ targets → x ∈ failed_names) →
  total (tracked failed_names t r) (for_each targets (genus_target it))
        (λ _, tracked failed_names t
                (if bool_decide (t ∈ targets) then genus_effect it r else r)).
Proof.
  revert r. induction targets as [|x targets IH]; intros r Hsub; cbn [for_each].
  - apply total_ret. intros w Hw. rewrite bool_decide_eq_false_2; [done|].
    apply not_elem_of_nil.
  - eapply total_bind.
    + apply total_genus_target. apply Hsub. left.
    + intros ?. eapply total_weaken.
      * apply IH. intros y Hy. apply Hsub. by right.
      * done.
      * simpl. intros _ w Hw.
        destruct (decide (x = t)) as [->|Hne].
        -- rewrite (bool_decide_eq_true_2 (t = t)) in Hw by done.
           rewrite (bool_decide_eq_true_2 (t ∈ t :: targets)) by left.
           case_bool_decide; [by rewrite genus_effect_idem in Hw | done].
        -- rewrite (bool_decide_eq_false_2 (x = t)) in Hw by done.
           case_bool_decide as H1; case_bool_decide as H2; try done.
           ++ exfalso. apply H2. by right.
           ++ exfalso. apply elem_of_cons in H2 as [?|?]; [by subst|done].
Qed.

Lemma total_finalize_failed (x : string) (r : record) :
  x ∈ failed_names →
  total (tracked failed_names t r) (finalize_failed x)
        (λ _, tracked failed_names t
                (if bool_decide (x = t) then final_level r else r)).
Proof.
  intros Hx w [Hl Ht]. destruct (Hl x Hx) as [rx Hrx].
  assert (Hrun : finalize_failed x w
                 = if bool_decide (level rx ∈ [Genus; NoMatchFinalGenusFailed])
                   then Ok () w
                   else Ok () (set_results (<[x := with_level NoMatchFinal rx]>
                                              (all_results w)) w)).
  { unfold finalize_failed, lookup_record. rewrite !bind_run. simpl. rewrite Hrx. simpl.
    destruct (bool_decide (level rx ∈ [Genus; NoMatchFinalGenusFailed])); [done|].
    unfold store_level, lookup_record. rewrite !bind_run. simpl. by rewrite Hrx. }
  rewrite Hrun. clear Hrun.
  destruct (decide (x = t)) as [->|Hne].
  - rewrite (bool_decide_eq_true_2 (t = t)) by done.
    assert (rx = r) as -> by congruence. unfold final_level.
    destruct (bool_decide (level r ∈ [Genus; NoMatchFinalGenusFailed])).
    + by eexists (), _.
    + eexists (), _. split; [done|].
      exact (tracked_insert_same _ _ _ _ _ (conj Hl Ht)).
  - rewrite (bool_decide_eq_false_2 (x = t)) by done.
    destruct (bool_decide (level rx ∈ [Genus; NoMatchFinalGenusFailed])).
    + by eexists (), _.
    + eexists (), _. split; [done|].
      exact (tracked_insert_other _ _ _ _ _ _ Hne (conj Hl Ht)).
Qed.

Lemma total_finalize_loop (l : list string) (r : record) :
  (∀ x, x ∈ l → x ∈ failed_names) →
  total (tracked failed_names t r) (for_each l finalize_failed)
        (λ _, tracked failed_names t
                (if bool_decide (t ∈ l) then final_level r else r)).
Proof.
  revert r. induction l as [|x l IH]; intros r Hsub; cbn [for_each].
  - apply total_ret. intros w Hw. rewrite bool_decide_eq_false_2; [done|].
    apply not_elem_of_nil.
  - eapply total_bind.
    + apply total_finalize_failed. apply Hsub. left.
    + intros ?. eapply total_weaken.
      * apply IH. intros y Hy. apply Hsub. by right.
      * done.
      * simpl. intros _ w Hw.
        destruct (decide (x = t)) as [->|Hne].
        -- rewrite (bool_decide_eq_true_2 (t = t)) in Hw by done.
           rewrite (bool_decide_eq_true_2 (t ∈ t :: l)) by left.
           case_bool_decide; [by rewrite final_level_idem in Hw | done].
        -- rewrite (bool_decide_eq_false_2 (x = t)) in Hw by done.
           case_bool_decide as H1; case_bool_decide as H2; try done.
           ++ exfalso. apply H2. by right.
           ++ exfalso. apply elem_of_cons in H2 as [?|?]; [by subst|done].
Qed.

End OneName.

(** *** The genus map *)

Lemma genus_step_ok acc seen name :
  genus_map_ok acc seen → genus_map_ok (genus_step acc name) (seen ++ [name]).
Proof.
  intros (H1 & H2 & H3). unfold genus_step.
  destruct (extract_genus (PyStr name)) as [genus|] eqn:Eg.
  2:{ split; [|split].
      - intros g l x Hl Hx. destruct (H1 g l x Hl Hx). split; [done|].
        apply elem_of_app. by left.
      - intros x g [Hx|Hx%list_elem_of_singleton]%elem_of_app Hg Hne;
          [by eapply H2 | congruence].
      - done. }
  destruct (String.eqb genus "") eqn:Ee.
  { apply String.eqb_eq in Ee. subst genus. split; [|split].
    - intros g l x Hl Hx. destruct (H1 g l x Hl Hx). split; [done|].
      apply elem_of_app. by left.
    - intros x g [Hx|Hx%list_elem_of_singleton]%elem_of_app Hg Hne;
        [by eapply H2 | congruence].
    - done. }
  apply String.eqb_neq in Ee. split; [|split]; simpl.
  - intros g l x Hl Hx. destruct (decide (genus = g)) as [->|Hne].
    + rewrite lookup_insert_eq in Hl. injection Hl as <-.
      apply elem_of_app in Hx as [Hx|Hx%list_elem_of_singleton].
      * destruct (acc.1 !! g) as [l0|] eqn:E0; simpl in Hx;
          [|by apply elem_of_nil in Hx].
        destruct (H1 g l0 x E0 Hx). split; [done|]. apply elem_of_app. by left.
      * subst x. split; [done|]. apply elem_of_app. right. by left.
    + rewrite lookup_insert_ne in Hl by done.
      destruct (H1 g l x Hl Hx). split; [done|]. apply elem_of_app. by left.
  - intros x g [Hx|Hx%list_elem_of_singleton]%elem_of_app Hg Hne.
    + destruct (H2 x g Hx Hg Hne) as (l & Hl & Hxl).
      destruct (decide (genus = g)) as [->|Hng].
      * rewrite lookup_insert_eq, Hl. simpl. eexists. split; [done|].
        apply elem_of_app. by left.
      * rewrite lookup_insert_ne by done. eauto.
    + subst x. assert (genus = g) as -> by (simpl in *; congruence).
      rewrite lookup_insert_eq. eexists. split; [done|].
      apply elem_of_app. right. by left.
  - intros g Hg. destruct (decide (genus = g)) as [->|Hne].
    + case_bool_decide; [done|]. apply elem_of_app. right. by left.
    + rewrite lookup_insert_ne in Hg by done. specialize (H3 g Hg).
      case_bool_decide; [done|]. apply elem_of_app. by left.
Qed.

Lemma genus_fold_ok (l seen : list string) acc :
  genus_map_ok acc seen → genus_map_ok (foldl genus_step acc l) (seen ++ l).
Proof.
  revert acc seen. induction l as [|name l IH]; intros acc seen H; simpl.
  - by rewrite app_nil_r.
  - replace (seen ++ name :: l) with ((seen ++ [name]) ++ l) by by rewrite <- app_assoc.
    apply IH. by apply genus_step_ok.
Qed.

Lemma genus_map_built (failed_names : list string) :
  genus_map_ok (foldl genus_step (∅, []) failed_names) failed_names.
Proof.
  apply (genus_fold_ok failed_names [] (∅, [])). split; [|split]; simpl.
  - intros g l x Hl. by rewrite lookup_empty in Hl.
  - intros x g Hx. by apply elem_of_nil in Hx.
  - intros g [l Hl]. by rewrite lookup_empty in Hl.
Qed.

Lemma still_failed_total (l : list string) (w : world) :
  recorded l w →
  ∃ t', still_failed l w = Ok t' w
        ∧ ∀ x, x ∈ t' ↔ x ∈ l ∧ ∃ r, all_results w !! x = Some r ∧ ott_id r = None.
Proof.
  induction l as [|n l IH]; intros Hl; simpl.
  - exists []. split; [done|]. intros x. split.
    + intros Hx. by apply elem_of_nil in Hx.
    + intros [Hx _]. by apply elem_of_nil in Hx.
  - destruct (Hl n) as [rn Hn]; [left|].
    destruct IH as (t' & Hrun & Ht'). { intros x Hx. apply Hl. by right. }
    rewrite bind_run. unfold lookup_record. rewrite bind_run. simpl.
    rewrite Hn. simpl. rewrite bind_run, Hrun. simpl.
    eexists. split; [reflexivity|]. intros x. case_bool_decide as Hid.
    + rewrite elem_of_cons, Ht', elem_of_cons. split.
      * intros [->|[? ?]]; [split; [by left | eauto] | split; [by right | done]].
      * intros [[->|?] ?]; [by left | right; done].
    + rewrite Ht', elem_of_cons. split.
      * intros [? ?]. split; [by right | done].
      * intros [[->|?] (r & Hr & Hr0)]; [congruence | eauto].
Qed.

Section OneGenus.

Variable failed_names : list string.
Variable t g : string.
Variable gm : gmap string (list string).
Variable genera : list string.

Hypothesis gm_ok : genus_map_ok (gm, genera) failed_names.
Hypothesis t_failed : t ∈ failed_names.
Hypothesis t_genus : extract_genus (PyStr t) = Some g.
Hypothesis g_nonempty : g ≠ "".

Lemma genus_filed : ∃ l, gm !! g = Some l ∧ t ∈ l.
Proof. destruct gm_ok as (_ & H2 & _). by apply (H2 t g). Qed.

Lemma genus_queued : g ∈ genera.
Proof.
  destruct gm_ok as (_ & _ & H3). destruct genus_filed as (l & Hl & _).
  apply (H3 g). simpl. eauto.
Qed.

Lemma total_genus_item (it : item) (r : record) :
  total (tracked failed_names t r) (genus_item gm it)
        (λ _, tracked failed_names t
                (if bool_decide (item_name it = g) then genus_effect it r else r)).
Proof.
  destruct gm_ok as (H1 & _ & _). destruct genus_filed as (l & Hl & Htl).
  unfold genus_item. destruct (gm !! item_name it) as [targets|] eqn:E.
  - eapply total_weaken.
    + apply (total_genus_targets failed_names t it targets r).
      intros x Hx. by destruct (H1 _ _ x E Hx).
    + done.
    + simpl. intros _ w Hw. destruct (decide (item_name it = g)) as [Hg|Hg].
      * rewrite (bool_decide_eq_true_2 _ Hg). rewrite Hg in E.
        assert (targets = l) as -> by congruence.
        by rewrite (bool_decide_eq_true_2 _ Htl) in Hw.
      * rewrite (bool_decide_eq_false_2 _ Hg).
        rewrite bool_decide_eq_false_2 in Hw; [done|].
        intros Ht. destruct (H1 _ _ t E Ht) as [Hgt _]. simpl in *. congruence.
  - apply total_ret. intros w Hw. rewrite bool_decide_eq_false_2; [done|].
    intros Hg. rewrite Hg in E. congruence.
Qed.

Lemma total_genus_items (items : list item) (r : record) :
  total (tracked failed_names t r) (for_each items (genus_item gm))
        (λ _, tracked failed_names t (genus_items_effect g items r)).
Proof.
  revert r. induction items as [|it items IH]; intros r; cbn [for_each].
  - by apply total_ret.
  - eapply total_bind; [apply total_genus_item|]. intros ?. apply IH.
Qed.

End OneGenus.

(** Stage 3 for one failed name [t] of genus [g]: the stage completes, and
    the record of [t] is the one that the items for [g] in the response,
    then lines 186-189, make of its record before the stage. *)
Lemma step3_record svc (failed_names : list string) (w : world)
    (t g : string) (r : record) :
  recorded failed_names w → t ∈ failed_names → all_results w !! t = Some r →
  extract_genus (PyStr t) = Some g → g ≠ "" →
  ∃ w', step3 svc failed_names w = Ok () w'
        ∧ all_results w' !! t
          = Some (stage3_effect g
                    (svc (length (calls w)) (foldl genus_step (∅, []) failed_names).2) r)
        ∧ recorded failed_names w'.
Proof.
  intros Hrec Ht Hr Hg Hne.
  pose proof (genus_map_built failed_names) as Hok.
  unfold step3. destruct (foldl genus_step (∅, []) failed_names) as [gm genera].
  simpl. set (resp := svc (length (calls w)) genera).
  pose proof (genus_queued failed_names t g gm genera Hok Ht Hg Hne) as Hq.
  assert (HA : total (λ w0, w0 = w)
                 (match genera with
                  | [] => mret ()
                  | _ => genus_result_data ← query_ott_tnrs svc genera;
                         match genus_result_data with
                         | Some items => for_each items (genus_item gm)
                         | None => mret ()
                         end
                  end)
                 (λ _, tracked failed_names t
                         (genus_items_effect g (default [] resp) r))).
  { destruct genera as [|g0 gs]; [by apply elem_of_nil in Hq|].
    eapply total_bind with
      (Q1 := λ res w', res = resp ∧ tracked failed_names t r w').
    - intros w0 ->. unfold query_ott_tnrs.
      eexists _, _. split; [reflexivity|]. split; [done|]. by split.
    - intros res. destruct res as [items|].
      + intros w0 [<- Htr]. simpl.
        by apply (total_genus_items failed_names t g gm (g0 :: gs) Hok Ht Hg Hne items r).
      + intros w0 [<- Htr]. exists (), w0. done. }
  set (r1 := genus_items_effect g (default [] resp) r) in *.
  assert (HB : total (tracked failed_names t r1)
                 (failed_names' ← still_failed failed_names;
                  for_each failed_names' finalize_failed)
                 (λ _, tracked failed_names t (final_effect r1))).
  { intros w1 [Hrec1 Ht1].
    destruct (still_failed_total failed_names w1 Hrec1) as (t' & Hrun & Ht').
    destruct (total_finalize_loop failed_names t t' r1) with (w := w1)
      as (u & w2 & Hrun2 & Htr2).
    { intros x Hx. by apply Ht'. }
    { by split. }
    exists u, w2. split; [by rewrite bind_run, Hrun|].
    unfold final_effect. destruct (decide (ott_id r1 = None)) as [Hid|Hid].
    - rewrite (bool_decide_eq_true_2 _ Hid).
      rewrite bool_decide_eq_true_2 in Htr2; [done|]. apply Ht'. eauto.
    - rewrite (bool_decide_eq_false_2 _ Hid).
      rewrite bool_decide_eq_false_2 in Htr2; [done|].
      intros (_ & r' & Hr' & Hid')%Ht'. congruence. }
  destruct (total_bind _ _ _ (λ _, _) _ HA (λ _, HB) w eq_refl)
    as (u & w' & Hrun & Hl & Hrt).
  destruct u. exists w'. done.
Qed.

(** *** The final pass and a finished record *)

Lemma for_each_state_inv {A} (I : world → Prop) (l : list A) (body : A → M unit) :
  (∀ x w, I w → I (state_of (body x w))) →
  ∀ w, I w → I (state_of (for_each l body w)).
Proof.
  intros Hb. induction l as [|x l IH]; intros w Hw; simpl; [done|].
  rewrite bind_run. specialize (Hb x w Hw).
  destruct (body x w) as [u w'|e w']; simpl in *; [by apply IH | done].
Qed.

Lemma merge_name_keeps (x t : string) (r : record) (w : world) :
  all_results w !! t = Some r →
  ott_id r ≠ None ∨ level r ≠ NoMatchInitial →
  all_results (state_of (merge_name x w)) !! t = Some r.
Proof.
  intros Ht Hfin. unfold merge_name. rewrite bind_run. simpl.
  destruct (all_results w !! x) as [rx|] eqn:Ex.
  - destruct (bool_decide (ott_id rx = None) && bool_decide (level rx = NoMatchInitial))
      eqn:Ec; [|done].
    apply andb_true_iff in Ec as [Hid%bool_decide_eq_true Hlv%bool_decide_eq_true].
    unfold store_level, lookup_record. rewrite !bind_run. simpl. rewrite Ex. simpl.
    destruct (decide (x = t)) as [->|Hne].
    + assert (rx = r) as -> by congruence. by destruct Hfin.
    + by rewrite lookup_insert_ne.
  - simpl. destruct (decide (x = t)) as [->|Hne]; [congruence|].
    by rewrite lookup_insert_ne.
Qed.

Lemma merge_prepare_keeps df_empty (unique_names : list string) (t : string)
    (r : record) (w : world) :
  all_results w !! t = Some r →
  ott_id r ≠ None ∨ level r ≠ NoMatchInitial →
  all_results (state_of (merge_prepare df_empty unique_names w)) !! t = Some r.
Proof.
  intros Ht Hfin. unfold merge_prepare. rewrite bind_run. simpl.
  case_bool_decide; [done|]. destruct df_empty; [done|].
  apply (for_each_state_inv (λ w, all_results w !! t = Some r)); [|done].
  intros x w0 H0. by apply merge_name_keeps.
Qed.

(** *** Items without candidates *)

Lemma genus_items_effect_failed_stays (g : string) (items : list item) (r : record) :
  ott_id r = None →
  (∀ it, it ∈ items → item_name it = g → item_matches it = []) →
  genus_items_effect g items (with_level NoMatchFinalGenusFailed r)
  = with_level NoMatchFinalGenusFailed r.
Proof.
  intros Hid. unfold genus_items_effect.
  induction items as [|it items IH]; intros Hall; simpl; [done|].
  case_bool_decide as Hg.
  - unfold genus_effect. simpl. rewrite bool_decide_eq_true_2 by done.
    rewrite (Hall it) by (done || left). simpl.
    apply IH. intros it' Hit'. apply Hall. by right.
  - apply IH. intros it' Hit'. apply Hall. by right.
Qed.

Lemma genus_items_effect_no_candidate (g : string) (items : list item) (r : record) :
  ott_id r = None →
  (∃ it, it ∈ items ∧ item_name it = g) →
  (∀ it, it ∈ items → item_name it = g → item_matches it = []) →
  genus_items_effect g items r = with_level NoMatchFinalGenusFailed r.
Proof.
  intros Hid. induction items as [|it items IH]; intros (it0 & Hin & Hg0) Hall.
  - by apply elem_of_nil in Hin.
  - unfold genus_items_effect. simpl. case_bool_decide as Hg.
    + unfold genus_effect. rewrite bool_decide_eq_true_2 by done.
      rewrite (Hall it) by (done || left).
      apply genus_items_effect_failed_stays; [done|].
      intros it' Hit'. apply Hall. by right.
    + apply IH.
      * apply elem_of_cons in Hin as [->|Hin]; [done | eauto].
      * intros it' Hit'. apply Hall. by right.
Qed.

Lemma genus_items_effect_other (g : string) (items : list item) (r : record) :
  (∀ it, it ∈ items → item_name it ≠ g) → genus_items_effect g items r = r.
Proof.
  unfold genus_items_effect. induction items as [|it items IH]; intros Hall; simpl; [done|].
  rewrite bool_decide_eq_false_2 by (apply Hall; left).
  apply IH. intros it' Hit'. apply Hall. by right.
Qed.

Lemma genus_items_effect_single (g : string) (l1 l2 : list item) (it : item)
    (r : record) :
  item_name it = g →
  (∀ it', it' ∈ l1 ++ l2 → item_name it' ≠ g) →
  genus_items_effect g (l1 ++ it :: l2) r = genus_effect it r.
Proof.
  intros Hg Hall. unfold genus_items_effect. rewrite foldl_app. simpl.
  fold (genus_items_effect g l1 r).
  rewrite genus_items_effect_other
    by (intros it' Hit'; apply Hall, elem_of_app; by left).
  rewrite bool_decide_eq_true_2 by done.
  apply genus_items_effect_other. intros it' Hit'. apply Hall, elem_of_app. by right.
Qed.

(** C9. A failed name whose record has no identifier, and for whose genus
    the genus response holds items without candidates only (at least one):
    stage 3 completes, and the record keeps every field of the earlier
    stage, [match_query] included, except its level, which becomes
    [NoMatchFinalGenusFailed]; the final pass leaves it so. *)
Theorem genus_no_candidate_changes_level_only svc (failed_names : list string)
    (w : world) (t g : string) (r : record) (items : list item)
    (df_empty : bool) (unique_names : list string) :
  recorded failed_names w → t ∈ failed_names →
  all_results w !! t = Some r → ott_id r = None →
  extract_genus (PyStr t) = Some g → g ≠ "" →
  svc (length (calls w)) (foldl genus_step (∅, []) failed_names).2 = Some items →
  (∃ it, it ∈ items ∧ item_name it = g) →
  (∀ it, it ∈ items → item_name it = g → item_matches it = []) →
  ∃ w' r',
    step3 svc failed_names w = Ok () w'
    ∧ all_results w' !! t = Some r'
    ∧ all_results (state_of (merge_prepare df_empty unique_names w')) !! t = Some r'
    ∧ level r' = NoMatchFinalGenusFailed
    ∧ match_query r' = match_query r
    ∧ matched_name r' = matched_name r
    ∧ synonyms r' = synonyms r
    ∧ ott_id r' = ott_id r
    ∧ rank r' = rank r
    ∧ approximate r' = approximate r
    ∧ is_synonym_input r' = is_synonym_input r.
Proof.
  intros Hrec Ht Hr Hid Hg Hne Hresp Hex Hall.
  destruct (step3_record svc failed_names w t g r Hrec Ht Hr Hg Hne)
    as (w' & Hrun & Hfin & _).
  rewrite Hresp in Hfin. unfold stage3_effect in Hfin. simpl in Hfin.
  rewrite (genus_items_effect_no_candidate g items r Hid Hex Hall) in Hfin.
  assert (Hfe : final_effect (with_level NoMatchFinalGenusFailed r)
                = with_level NoMatchFinalGenusFailed r).
  { unfold final_effect, final_level. simpl. by rewrite Hid. }
  rewrite Hfe in Hfin.
  exists w', (with_level NoMatchFinalGenusFailed r).
  split; [done|]. split; [done|]. split.
  - apply merge_prepare_keeps; [done|]. right. done.
  - done.
Qed.

Lemma genus_no_candidate_changes_level_only_witness :
  ∃ w' r',
    step3 svc_no_candidates ["Oryza sativa L."] world_with_unmatched = Ok () w'
    ∧ all_results w' !! "Oryza sativa L." = Some r'
    ∧ level r' = NoMatchFinalGenusFailed
    ∧ match_query r' = "Oryza sativa L.".
Proof.
  destruct (genus_no_candidate_changes_level_only svc_no_candidates
              ["Oryza sativa L."] world_with_unmatched "Oryza sativa L." "Oryza"
              (empty_record "Oryza sativa L." NoMatchInitial)
              [mk_item "Oryza" []] false ["Oryza sativa L."])
    as (w' & r' & H1 & H2 & _ & H3 & H4 & _).
  - intros x Hx%list_elem_of_singleton. subst x. vm_compute. eauto.
  - left.
  - vm_compute. reflexivity.
  - reflexivity.
  - vm_compute. reflexivity.
  - discriminate.
  - vm_compute. reflexivity.
  - exists (mk_item "Oryza" []). split; [left | reflexivity].
  - intros it Hit%list_elem_of_singleton _. by subst it.
  - exists w', r'. done.
Defined.

(** X14. Stage 3 as a whole, for a failed name whose genus has one item in the
    response, with a first candidate [c]: the name ends the stage with the
    candidate's record when the rank is accepted, and otherwise with its
    earlier record, finalized by lines 186-189. *)
Lemma genus_stage_outcome svc (failed_names : list string) (w : world)
    (t g : string) (r : record) (l1 l2 : list item) (it : item)
    (c : candidate) (cs : list candidate) :
  recorded failed_names w → t ∈ failed_names →
  all_results w !! t = Some r → ott_id r = None →
  extract_genus (PyStr t) = Some g → g ≠ "" →
  svc (length (calls w)) (foldl genus_step (∅, []) failed_names).2
    = Some (l1 ++ it :: l2) →
  item_name it = g → (∀ it', it' ∈ l1 ++ l2 → item_name it' ≠ g) →
  item_matches it = c :: cs →
  ∃ w', step3 svc failed_names w = Ok () w'
        ∧ all_results w' !! t
          = Some (if genus_rank_ok (cand_taxon c)
                  then record_of_match c g Genus
                  else final_level r).
Proof.
  intros Hrec Ht Hr Hid Hg Hne Hresp Hit Hothers Hm.
  destruct (step3_record svc failed_names w t g r Hrec Ht Hr Hg Hne)
    as (w' & Hrun & Hfin & _).
  exists w'. split; [done|]. rewrite Hfin, Hresp. f_equal.
  unfold stage3_effect. simpl.
  rewrite (genus_items_effect_single g l1 l2 it r Hit Hothers).
  unfold genus_effect. rewrite bool_decide_eq_true_2 by done. rewrite Hm, Hit.
  destruct (genus_rank_ok (cand_taxon c)).
  - unfold final_effect, final_level. simpl.
    by destruct (bool_decide (taxon_ott_id (cand_taxon c) = None)).
  - unfold final_effect. by rewrite bool_decide_eq_true_2.
Qed.

(** The whole run on one name that only the genus stage can resolve. *)
Example genus_stage_rejects_species :
  let o := cascade (svc_hit_after_first "species") remove_dups ["Oryza sativa"] world0 in
  completed o = true
  ∧ calls (state_of o) = [["Oryza sativa"]; ["Oryza"]]
  ∧ all_results (state_of o) !! "Oryza sativa"
    = Some (empty_record "Oryza sativa" NoMatchFinal).
Proof. repeat split; vm_compute; reflexivity. Qed.

Example genus_stage_accepts_family :
  let o := cascade (svc_hit_after_first "Family") remove_dups ["Oryza sativa"] world0 in
  completed o = true
  ∧ all_results (state_of o) !! "Oryza sativa"
    = Some {| matched_name := Some "Oryza"; synonyms := Some "";
              ott_id := Some 42%Z; rank := Some "Family";
              match_query := "Oryza"; level := Genus;
              approximate := false; is_synonym_input := false |}.
Proof. repeat split; vm_compute; reflexivity. Qed.

(** The scenario of a trailing authority: no candidate for the name as it
    is, a candidate for its cleaned form. *)
Example cleaned_stage_matches :
  let o := cascade (svc_hit_after_first "species") remove_dups ["Foo bar Baz"] world0 in
  completed o = true
  ∧ calls (state_of o) = [["Foo bar Baz"]; ["Foo bar"]]
  ∧ (level <$> all_results (state_of o) !! "Foo bar Baz") = Some SpeciesCleaned
  ∧ (match_query <$> all_results (state_of o) !! "Foo bar Baz") = Some "Foo bar".
Proof. repeat split; vm_compute; reflexivity. Qed.

(** * Further properties of the run *)

(** ** Completion of the stages *)

Lemma total_for_each {A} (I : world → Prop) (l : list A) (body : A → M unit) :
  (∀ x, x ∈ l → total I (body x) (λ _, I)) →
  total I (for_each l body) (λ _, I).
Proof.
  induction l as [|x l IH]; intros Hb; cbn [for_each].
  - by apply total_ret.
  - eapply total_bind; [apply Hb; left|].
    intros ?. apply IH. intros y Hy. apply Hb. by right.
Qed.

Lemma total_genus_target_recorded (l : list string) (it : item) (x : string) :
  x ∈ l → total (recorded l) (genus_target it x) (λ _, recorded l).
Proof.
  intros Hx w Hrec. destruct (Hrec x Hx) as [r Hr].
  destruct (total_genus_target l x it x r Hx w (conj Hrec Hr))
    as (u & w' & Hrun & [Hrec' _]).
  by exists u, w'.
Qed.

Lemma total_finalize_recorded (l : list string) (x : string) :
  x ∈ l → total (recorded l) (finalize_failed x) (λ _, recorded l).
Proof.
  intros Hx w Hrec. destruct (Hrec x Hx) as [r Hr].
  destruct (total_finalize_failed l x x r Hx w (conj Hrec Hr))
    as (u & w' & Hrun & [Hrec' _]).
  by exists u, w'.
Qed.

Lemma total_genus_item_recorded (l : list string) gm (it : item) :
  (∀ g l0 x, gm !! g = Some l0 → x ∈ l0 → x ∈ l) →
  total (recorded l) (genus_item gm it) (λ _, recorded l).
Proof.
  intros Hgm. unfold genus_item.
  destruct (gm !! item_name it) as [targets|] eqn:E; [|by apply total_ret].
  apply total_for_each. intros x Hx. apply total_genus_target_recorded.
  by eapply Hgm.
Qed.

Lemma still_failed_cases (l : list string) (w : world) :
  (∃ t', still_failed l w = Ok t' w
         ∧ recorded l w
         ∧ ∀ x, x ∈ t' ↔ x ∈ l ∧ ∃ r, all_results w !! x = Some r ∧ ott_id r = None)
  ∨ (∃ n, still_failed l w = Raised (KeyError n) w
          ∧ n ∈ l ∧ all_results w !! n = None).
Proof.
  induction l as [|n l IH].
  - left. destruct (still_failed_total [] w) as (t' & ? & ?).
    { intros x Hx. by apply elem_of_nil in Hx. }
    exists t'. split; [done|]. split; [|done]. intros x Hx. by apply elem_of_nil in Hx.
  - destruct (all_results w !! n) as [r|] eqn:En.
    + destruct IH as [(t' & Hrun & Hrec & Ht')|(m & Hrun & Hm & Hnone)].
      * left. assert (Hrec' : recorded (n :: l) w).
        { intros x [->|Hx]%elem_of_cons; [eauto | by apply Hrec]. }
        destruct (still_failed_total (n :: l) w Hrec') as (t'' & ? & ?). eauto.
      * right. exists m. split; [|split; [by right | done]].
        simpl. rewrite bind_run. unfold lookup_record. rewrite bind_run. simpl.
        rewrite En. simpl. by rewrite bind_run, Hrun.
    + right. exists n. split; [|split; [left | done]].
      simpl. rewrite bind_run. unfold lookup_record. rewrite bind_run. simpl.
      by rewrite En.
Qed.

Lemma final_level_settled (r : record) : settled (final_level r).
Proof.
  intros _. unfold final_level.
  destruct (bool_decide (level r ∈ [Genus; NoMatchFinalGenusFailed])) eqn:E.
  - apply bool_decide_eq_true in E.
    apply elem_of_cons in E as [->|E]; [left|].
    apply list_elem_of_singleton in E as ->. right. left.
  - simpl. right. right. left.
Qed.

Lemma settled_not_initial (r : record) :
  settled r → ott_id r ≠ None ∨ level r ≠ NoMatchInitial.
Proof.
  intros Hs. destruct (decide (ott_id r = None)) as [Hid|Hid]; [|by left].
  right. intros Hl. specialize (Hs Hid). rewrite Hl in Hs.
  rewrite !elem_of_cons, elem_of_nil in Hs. by destruct Hs as [?|[?|[?|[]]]].
Qed.

(** Stage 3 cannot raise once every name it is given has a record, and it
    leaves each of them settled. *)
Lemma step3_finalizes svc (failed_names : list string) (w : world) :
  recorded failed_names w →
  ∃ w', step3 svc failed_names w = Ok () w'
        ∧ grows w w' ∧ all_settled failed_names w'.
Proof.
  intros Hrec.
  assert (Hg : grows w (state_of (step3 svc failed_names w))).
  { by destruct (guarded_step3 svc failed_names w I). }
  pose proof (genus_map_built failed_names) as Hok. revert Hg.
  unfold step3. destruct (foldl genus_step (∅, []) failed_names) as [gm genera].
  destruct Hok as (Hgm & _ & _). simpl in Hgm.
  set (A := match genera with
            | [] => mret ()
            | _ => genus_result_data ← query_ott_tnrs svc genera;
                   match genus_result_data with
                   | Some items => for_each items (genus_item gm)
                   | None => mret ()
                   end
            end).
  assert (HA : total (recorded failed_names) A (λ _, recorded failed_names)).
  { unfold A. destruct genera as [|g0 gs]; [by apply total_ret|].
    eapply total_bind with (Q1 := λ _, recorded failed_names).
    - intros w0 Hw0. destruct (query_run svc (g0 :: gs) w0) as (r & cs & ->).
      by exists r, (mk_world (all_results w0) cs).
    - intros [items|]; [|by apply total_ret].
      apply total_for_each. intros it _. apply total_genus_item_recorded.
      intros g l0 x Hl0 Hx. by destruct (Hgm g l0 x Hl0 Hx). }
  destruct (HA w Hrec) as (u & w1 & HrunA & Hrec1).
  rewrite bind_run, HrunA.
  destruct (still_failed_total failed_names w1 Hrec1) as (t' & Hsf & Ht').
  rewrite bind_run, Hsf.
  assert (Hsub : ∀ x, x ∈ t' → x ∈ failed_names) by (intros x Hx; by apply Ht').
  destruct (total_for_each (recorded failed_names) t' finalize_failed) with (w := w1)
    as (u2 & w2 & Hrun2 & Hrec2); [|done|].
  { intros x Hx. apply total_finalize_recorded. by apply Hsub. }
  rewrite Hrun2. intros Hg. exists w2. destruct u2. split; [done|]. split; [done|].
  intros x Hx. destruct (Hrec1 x Hx) as [r Hr].
  destruct (total_finalize_loop failed_names x t' r Hsub w1 (conj Hrec1 Hr))
    as (u3 & w3 & Hrun3 & _ & Hr3).
  assert (w3 = w2) as -> by congruence.
  eexists. split; [exact Hr3|].
  case_bool_decide as Hin.
  - apply final_level_settled.
  - intros Hid. exfalso. apply Hin, Ht'. eauto.
Qed.



(** ** How the stages can end *)

Lemma step2_cases svc set_to_list (failed_names : list string) (w : world) :
  ∃ w2, grows w w2
        ∧ ((∃ t', step2 svc set_to_list failed_names w = Ok t' w2
                  ∧ recorded failed_names w2
                  ∧ ∀ x, x ∈ t' ↔ x ∈ failed_names
                                   ∧ ∃ r, all_results w2 !! x = Some r ∧ ott_id r = None)
           ∨ (∃ n, step2 svc set_to_list failed_names w = Raised (KeyError n) w2
                   ∧ n ∈ failed_names ∧ all_results w2 !! n = None)).
Proof.
  unfold step2. destruct (foldl clean_step (∅, []) failed_names) as [cmap names].
  set (A := match names with
            | [] => mret ()
            | _ => cleaned_result_data ← query_ott_tnrs svc (set_to_list names);
                   d ← get_results;
                   put_results (process_tnrs_results cleaned_result_data d
                                  SpeciesCleaned (Some cmap))
            end).
  assert (HA : ∃ w2, A w = Ok () w2 ∧ grows w w2).
  { unfold A. destruct names as [|n names]; [exists w; split; [done | apply grows_refl]|].
    rewrite bind_run.
    destruct (query_run svc (set_to_list (n :: names)) w) as (r & cs & ->).
    rewrite bind_run. simpl. eexists. split; [reflexivity|].
    unfold grows. simpl. apply process_tnrs_results_update. }
  destruct HA as (w2 & HrunA & Hg). exists w2. split; [done|].
  rewrite bind_run, HrunA.
  destruct (still_failed_cases failed_names w2)
    as [(t' & Hrun & Hrec & Ht')|(n & Hrun & Hn & Hnone)]; [left|right]; eauto.
Qed.

Lemma failed_after_step1_spec (unique_names : list string) d (n : string) :
  n ∈ failed_after_step1 unique_names d ↔ n ∈ unique_names ∧ lacks_id (d !! n) = true.
Proof. unfold failed_after_step1. rewrite list_elem_of_filter. tauto. Qed.

Lemma stages_cases svc set_to_list (bs : nat) (unique_names : list string) (w : world) :
  (0 < bs)%nat → unique_names ≠ [] →
  ∃ w1, step1 svc bs unique_names w = Ok () w1
    ∧ let failed := failed_after_step1 unique_names (all_results w1) in
      (failed = [] ∧ stages svc set_to_list bs unique_names w = Ok () w1)
      ∨ (∃ n w2, stages svc set_to_list bs unique_names w = Raised (KeyError n) w2
                 ∧ grows w1 w2 ∧ n ∈ failed ∧ all_results w2 !! n = None)
      ∨ (∃ t' w2 w3, stages svc set_to_list bs unique_names w = Ok () w3
                     ∧ grows w1 w2 ∧ grows w2 w3 ∧ recorded failed w2
                     ∧ (∀ x, x ∈ t' ↔ x ∈ failed
                                      ∧ ∃ r, all_results w2 !! x = Some r
                                             ∧ ott_id r = None)
                     ∧ all_settled t' w3).
Proof.
  intros Hbs Hne. destruct (step1_run svc bs unique_names w Hbs) as [d Hrun1].
  eexists. split; [exact Hrun1|]. simpl.
  unfold stages. destruct unique_names as [|n0 ns] eqn:En; [done|]. rewrite <- En in *.
  clear En Hne n0 ns.
  rewrite bind_run, Hrun1, bind_run. simpl.
  set (w1 := mk_world d (calls w ++ step1_batches bs unique_names)).
  destruct (failed_after_step1 unique_names d) as [|f fs] eqn:Ef.
  { left. by rewrite bind_run. }
  right. rewrite <- Ef. rewrite bind_run.
  destruct (step2_cases svc set_to_list (failed_after_step1 unique_names d) w1)
    as (w2 & Hg12 & [(t' & Hrun2 & Hrec2 & Ht')|(n & Hrun2 & Hn & Hnone)]).
  - right. rewrite Hrun2. destruct t' as [|t0 ts] eqn:Et.
    + exists [], w2, w2. split; [done|]. split; [done|]. split; [apply grows_refl|].
      split; [done|]. split; [done|]. intros x Hx. by apply elem_of_nil in Hx.
    + rewrite <- Et in *. clear Et t0 ts.
      assert (Hrec' : recorded t' w2).
      { intros x Hx. apply Ht' in Hx as (_ & r & Hr & _). eauto. }
      destruct (step3_finalizes svc t' w2 Hrec') as (w3 & Hrun3 & Hg23 & Hset).
      exists t', w2, w3. by rewrite Hrun3.
  - left. exists n, w2. by rewrite Hrun2.
Qed.

(** ** Stage 1 under a service that answers *)






Lemma failed_names_cases (unique_names : list string) d (n : string) :
  n ∈ unique_names →
  n ∈ failed_after_step1 unique_names d
  ∨ ∃ r, d !! n = Some r ∧ ott_id r ≠ None.
Proof.
  intros Hn. destruct (lacks_id (d !! n)) eqn:E.
  - left. by apply failed_after_step1_spec.
  - right. destruct (d !! n) as [r|]; [|done]. exists r. split; [done|].
    simpl in E. by apply bool_decide_eq_false in E.
Qed.

Lemma stages_ok_settled svc set_to_list (bs : nat) (unique_names : list string)
    (w w3 : world) :
  stages svc set_to_list bs unique_names w = Ok () w3 →
  all_settled unique_names w3.
Proof.
  intros Hrun. destruct unique_names as [|n0 ns] eqn:En.
  { intros x Hx. by apply elem_of_nil in Hx. }
  rewrite <- En in *. assert (Hne : unique_names ≠ []) by by rewrite En.
  clear En n0 ns.
  destruct bs as [|bs'].
  { exfalso. unfold stages in Hrun. destruct unique_names; [done|].
    by rewrite bind_run in Hrun. }
  destruct (stages_cases svc set_to_list (S bs') unique_names w ltac:(lia) Hne)
    as (w1 & Hrun1 & Hcases). simpl in Hcases.
  assert (Hkeep : ∀ wa wb n, grows wa wb →
            (∃ r, all_results wa !! n = Some r ∧ ott_id r ≠ None) →
            ∃ r, all_results wb !! n = Some r ∧ settled r).
  { intros wa wb n Hg (r & Hr & Hid). exists r.
    split; [by eapply grows_keeps_resolved | by intros ?]. }
  destruct Hcases as [[Hf Hrun']|[(n & w2 & Hrun' & _)|(t' & w2 & w3' & Hrun' & Hg12 & Hg23 & Hrec2 & Ht' & Hset)]].
  - assert (w3 = w1) as -> by congruence. intros n Hn.
    destruct (failed_names_cases unique_names (all_results w1) n Hn) as [Hin|Hres].
    + rewrite Hf in Hin. by apply elem_of_nil in Hin.
    + apply (Hkeep w1 w1 n); [apply grows_refl | done].
  - congruence.
  - assert (w3' = w3) as -> by congruence. intros n Hn.
    destruct (decide (n ∈ t')) as [Hin|Hnin]; [by apply Hset|].
    apply (Hkeep w2 w3 n Hg23).
    destruct (failed_names_cases unique_names (all_results w1) n Hn) as [Hf|(r & Hr & Hid)].
    + destruct (Hrec2 n Hf) as [r Hr]. exists r. split; [done|].
      intros Hid. apply Hnin, Ht'. eauto.
    + exists r. split; [by eapply grows_keeps_resolved | done].
Qed.

Lemma cascade_ok_settled svc set_to_list (bs : nat) df_empty
    (unique_names : list string) (w w3 w' : world) :
  stages svc set_to_list bs unique_names w = Ok () w3 →
  merge_prepare df_empty unique_names w3 = Ok () w' →
  all_settled unique_names w'.
Proof.
  intros Hrun Hm n Hn.
  destruct (stages_ok_settled svc set_to_list bs unique_names w w3 Hrun n Hn)
    as (r & Hr & Hs).
  exists r. split; [|done].
  pose proof (merge_prepare_keeps df_empty unique_names n r w3 Hr
                (settled_not_initial r Hs)) as Hk.
  by rewrite Hm in Hk.
Qed.

(** X1. When the run completes, every input name has a record, and a record
    without identifier has one of the levels [Genus],
    [NoMatchFinalGenusFailed], [NoMatchFinal]: no input name is left at
    [NoMatchInitial] or gets [ProcessingError], whatever the service
    answered and whatever the state the run began in. *)
Theorem completed_run_settles_every_name svc set_to_list (bs : nat) df_empty
    (unique_names : list string) (w w' : world) :
  cascade_with svc set_to_list bs df_empty unique_names w = Ok () w' →
  ∀ n, n ∈ unique_names →
       ∃ r, all_results w' !! n = Some r
            ∧ (ott_id r = None →
               level r ∈ [Genus; NoMatchFinalGenusFailed; NoMatchFinal]).
Proof.
  unfold cascade_with. rewrite bind_run.
  destruct (stages svc set_to_list bs unique_names w) as [[] w3|e w3] eqn:Hst; [|done].
  intros Hm. by apply (cascade_ok_settled svc set_to_list bs df_empty unique_names w w3 w').
Qed.

Lemma completed_run_settles_every_name_witness :
  ∃ r, all_results (state_of (cascade svc_no_candidates remove_dups
                                ["Oryza sativa"; "Zea"] world0)) !! "Zea" = Some r
       ∧ (ott_id r = None →
          level r ∈ [Genus; NoMatchFinalGenusFailed; NoMatchFinal]).
Proof.
  destruct (cascade svc_no_candidates remove_dups ["Oryza sativa"; "Zea"] world0)
    as [[] w'|e w'] eqn:Hrun.
  - simpl.
    apply (completed_run_settles_every_name svc_no_candidates remove_dups BATCH_SIZE
             false ["Oryza sativa"; "Zea"] world0 w' Hrun "Zea").
    right. left.
  - exfalso. vm_compute in Hrun. discriminate Hrun.
Defined.





(** ** The calls of a run *)

Lemma quiet_merge_name (name : string) : quiet (merge_name name).
Proof.
  intros w. unfold merge_name. rewrite bind_run. simpl.
  destruct (all_results w !! name) as [r|] eqn:E; [|done].
  destruct (bool_decide (ott_id r = None) && bool_decide (level r = NoMatchInitial));
    [|done].
  apply quiet_store_level.
Qed.

Lemma quiet_merge_prepare df_empty (unique_names : list string) :
  quiet (merge_prepare df_empty unique_names).
Proof.
  intros w. unfold merge_prepare. rewrite bind_run. simpl.
  case_bool_decide; [done|]. destruct df_empty; [done|].
  apply quiet_for_each. intros x. apply quiet_merge_name.
Qed.

Lemma step1_batches_nil (bs : nat) : (0 < bs)%nat → step1_batches bs [] = [].
Proof.
  intros Hbs. unfold step1_batches, range_step. simpl.
  replace (bs - 1)%nat with (Nat.pred bs) by lia.
  rewrite Nat.div_small by lia. reflexivity.
Qed.

Lemma stages_calls svc set_to_list (bs : nat) (unique_names : list string) (w : world) :
  (0 < bs)%nat →
  ∃ c2 c3,
    calls (state_of (stages svc set_to_list bs unique_names w))
    = calls w ++ step1_batches bs unique_names ++ c2 ++ c3
    ∧ (length c2 ≤ 1)%nat ∧ (length c3 ≤ 1)%nat
    ∧ Forall (λ c, c ≠ []) (c2 ++ c3).
Proof.
  intros Hbs. unfold stages. destruct unique_names as [|n0 ns] eqn:En.
  { exists [], []. rewrite step1_batches_nil by done. simpl.
    rewrite app_nil_r. repeat split; [lia | lia | constructor]. }
  rewrite <- En. clear En n0 ns.
  destruct (step1_run svc bs unique_names w Hbs) as [d Hrun1].
  rewrite bind_run, Hrun1, bind_run. simpl.
  set (w1 := mk_world d (calls w ++ step1_batches bs unique_names)).
  destruct (failed_after_step1 unique_names d) as [|f fs] eqn:Ef.
  { exists [], []. rewrite bind_run. simpl. rewrite !app_nil_r.
    repeat split; [lia | lia | constructor]. }
  rewrite <- Ef. clear Ef f fs. rewrite bind_run.
  pose proof (step2_calls svc set_to_list (failed_after_step1 unique_names d) w1) as Hc2.
  set (c2 := match (foldl clean_step (∅, []) (failed_after_step1 unique_names d)).2 with
             | [] => []
             | cleaned => match set_to_list cleaned with
                          | [] => []
                          | _ => [set_to_list cleaned]
                          end
             end) in Hc2.
  assert (Hc2ok : (length c2 ≤ 1)%nat ∧ Forall (λ c, c ≠ []) c2).
  { unfold c2. destruct ((foldl clean_step (∅, []) _).2) as [|x xs];
      [split; [simpl; lia | constructor]|].
    destruct (set_to_list (x :: xs)) as [|y ys] eqn:Es;
      [split; [simpl; lia | constructor]|].
    split; [simpl; lia|]. by repeat constructor. }
  destruct Hc2ok as [Hl2 Hn2].
  destruct (step2 svc set_to_list (failed_after_step1 unique_names d) w1)
    as [t' w2|e w2]; simpl in Hc2.
  - destruct t' as [|t0 ts] eqn:Et.
    + exists c2, []. simpl. rewrite Hc2. unfold w1. simpl.
      rewrite app_nil_r, <- app_assoc. repeat split; [done | lia | done].
    + rewrite <- Et. clear Et t0 ts.
      pose proof (step3_calls svc t' w2) as Hc3.
      set (c3 := match (foldl genus_step (∅, []) t').2 with
                 | [] => []
                 | genera => [genera]
                 end) in Hc3.
      exists c2, c3. rewrite Hc3, Hc2. unfold w1. simpl.
      rewrite <- !app_assoc. split; [done|]. split; [done|].
      assert (Hc3ok : (length c3 ≤ 1)%nat ∧ Forall (λ c, c ≠ []) c3).
      { unfold c3. destruct ((foldl genus_step (∅, []) t').2) as [|x xs];
          [split; [simpl; lia | constructor]|].
        split; [simpl; lia|]. by repeat constructor. }
      destruct Hc3ok. split; [done|]. by apply Forall_app.
  - exists c2, []. simpl. rewrite Hc2. unfold w1. simpl.
    rewrite app_nil_r, <- app_assoc. repeat split; [done | lia | done].
Qed.

(** X4. The calls of a run, in order: the stage-1 batches, then at most one
    call for the cleaned names, then at most one for the genera.  No call
    is repeated after a failure and no call carries an empty list; in all
    at most one call per batch plus two. *)
Theorem run_call_log svc set_to_list (bs : nat) df_empty
    (unique_names : list string) (w : world) :
  (0 < bs)%nat →
  ∃ c2 c3,
    calls (state_of (cascade_with svc set_to_list bs df_empty unique_names w))
    = calls w ++ step1_batches bs unique_names ++ c2 ++ c3
    ∧ (length c2 ≤ 1)%nat ∧ (length c3 ≤ 1)%nat
    ∧ Forall (λ c, c ≠ []) (step1_batches bs unique_names ++ c2 ++ c3)
    ∧ (length (step1_batches bs unique_names ++ c2 ++ c3)
       ≤ (length unique_names + bs - 1) / bs + 2)%nat.
Proof.
  intros Hbs.
  destruct (stages_calls svc set_to_list bs unique_names w Hbs)
    as (c2 & c3 & Hc & Hl2 & Hl3 & Hne).
  exists c2, c3. split; [|split; [done|split; [done|split]]].
  - unfold cascade_with. rewrite then_quiet; [done|].
    intros ?. apply quiet_merge_prepare.
  - apply Forall_app. split; [|done].
    eapply Forall_impl; [by apply step1_batches_sizes|].
    simpl. intros b Hb ->. simpl in Hb. lia.
  - rewrite !length_app. unfold step1_batches, range_step.
    rewrite !length_fmap, length_seq. lia.
Qed.

Lemma run_call_log_witness :
  ∃ c2 c3,
    calls (state_of (cascade_with svc_no_candidates remove_dups 2 false
                       ["Zea mays"; "Oryza sativa L."; "Cocos nucifera"] world0))
    = [] ++ [["Zea mays"; "Oryza sativa L."]; ["Cocos nucifera"]] ++ c2 ++ c3
    ∧ (length c2 ≤ 1)%nat ∧ (length c3 ≤ 1)%nat.
Proof.
  destruct (run_call_log svc_no_candidates remove_dups 2 false
              ["Zea mays"; "Oryza sativa L."; "Cocos nucifera"] world0 ltac:(lia))
    as (c2 & c3 & H1 & H2 & H3 & _).
  exists c2, c3. split; [|exact (conj H2 H3)]. rewrite H1. reflexivity.
Defined.

(** ** Records stay *)

(** X5. A name that has a record keeps having one through every stage and
    through the whole run, also when the run raises: entries of
    [all_results] are replaced, never removed. *)
Theorem records_are_never_removed svc set_to_list (bs : nat) df_empty
    (unique_names failed_names : list string) (w : world) (n : string) :
  is_Some (all_results w !! n) →
  is_Some (all_results (state_of (step1 svc bs unique_names w)) !! n)
  ∧ is_Some (all_results (state_of (step2 svc set_to_list failed_names w)) !! n)
  ∧ is_Some (all_results (state_of (step3 svc failed_names w)) !! n)
  ∧ is_Some (all_results (state_of (merge_prepare df_empty unique_names w)) !! n)
  ∧ is_Some (all_results
               (state_of (cascade_with svc set_to_list bs df_empty unique_names w)) !! n).
Proof.
  intros Hn.
  assert (Hrec : recorded [n] w).
  { intros x Hx%list_elem_of_singleton. by subst x. }
  assert (Hk : ∀ {A} (m : M A) (Q : A → world → Prop),
             guarded (λ _, True) m Q → is_Some (all_results (state_of (m w)) !! n)).
  { intros A m Q Hm. destruct (Hm w I) as [Hg _].
    apply (grows_keeps_recorded w _ [n] Hg Hrec). left. }
  repeat split.
  - eapply Hk, guarded_step1.
  - eapply Hk, guarded_step2.
  - eapply Hk, guarded_step3.
  - eapply Hk, guarded_merge_prepare.
  - eapply Hk, guarded_cascade_with.
Qed.

Lemma records_are_never_removed_witness :
  is_Some (all_results
             (state_of (cascade_with svc_failure remove_dups 1 false
                          ["Oryza sativa L."; "Cocos nucifera"] world_with_unmatched))
             !! "Oryza sativa L.").
Proof.
  refine (proj2 (proj2 (proj2 (proj2
    (records_are_never_removed svc_failure remove_dups 1 false
       ["Oryza sativa L."; "Cocos nucifera"] [] world_with_unmatched
       "Oryza sativa L." _))))).
  vm_compute. eauto.
Defined.

(** ** The tables built before the second and third calls *)

(** X6. Lines 132-138.  The names queried at stage 2 are the cleaned forms of
    the failed names that cleaning changes into a non-empty text, in order
    and with repetitions; [cleaned_names_map] sends a cleaned form to the
    last failed name that cleans into it, and to nothing else. *)
Theorem cleaned_names_map_spec (failed_names : list string) :
  let changed := filter (λ n, clean_str n ≠ "" ∧ clean_str n ≠ n) failed_names in
  (foldl clean_step (∅, []) failed_names).2 = clean_str <$> changed
  ∧ ∀ c, (foldl clean_step (∅, []) failed_names).1 !! c
         = last (filter (λ n, clean_str n = c) changed).
Proof.
  induction failed_names as [|x l IH] using rev_ind.
  - simpl. split; [done|]. intros c. by rewrite lookup_empty.
  - cbv zeta in *. destruct IH as [IH2 IH1].
    rewrite foldl_app. simpl. rewrite filter_app.
    destruct (foldl clean_step (∅, []) l) as [cmap queue]. simpl in *.
    unfold clean_step. simpl.
    destruct (String.eqb_spec (clean_str x) "") as [He|He]; simpl.
    { rewrite filter_cons_False by (intros [? ?]; done).
      rewrite filter_nil, app_nil_r. done. }
    destruct (String.eqb_spec (clean_str x) x) as [Hx|Hx]; simpl.
    { rewrite filter_cons_False by (intros [? ?]; done).
      rewrite filter_nil, app_nil_r. done. }
    rewrite filter_cons_True by done. rewrite filter_nil. split.
    + by rewrite fmap_app, IH2.
    + intros c. rewrite filter_app. destruct (decide (clean_str x = c)) as [<-|Hc].
      * rewrite lookup_insert_eq. rewrite (filter_cons_True _ x []) by done.
        rewrite filter_nil. by rewrite last_snoc.
      * rewrite lookup_insert_ne by done. rewrite (filter_cons_False _ x []) by done.
        rewrite filter_nil, app_nil_r. apply IH1.
Qed.

(** X7. Lines 151-160.  The genera queried at stage 3 are, without
    repetition, the non-empty genera of the failed names; [genus_map] sends
    each of them to all the failed names of that genus, in order. *)
Theorem genus_map_spec (failed_names : list string) :
  NoDup (foldl genus_step (∅, []) failed_names).2
  ∧ (∀ g, g ∈ (foldl genus_step (∅, []) failed_names).2
          ↔ g ≠ "" ∧ ∃ n, n ∈ failed_names ∧ extract_genus (PyStr n) = Some g)
  ∧ ∀ g, (foldl genus_step (∅, []) failed_names).1 !! g
         = if decide (g = "") then None
           else match filter (λ n, extract_genus (PyStr n) = Some g) failed_names with
                | [] => None
                | names => Some names
                end.
Proof.
  induction failed_names as [|x l IH] using rev_ind.
  - simpl. split; [constructor|]. split.
    + intros g. split; [intros H; by apply elem_of_nil in H|].
      intros (_ & n & Hn & _). by apply elem_of_nil in Hn.
    + intros g. rewrite lookup_empty. by case_decide.
  - destruct IH as (IHnd & IHin & IHgm). rewrite foldl_app. simpl.
    destruct (foldl genus_step (∅, []) l) as [gm genera]. simpl in *.
    unfold genus_step. destruct (extract_genus (PyStr x)) as [genus|] eqn:Eg.
    2:{ simpl. split; [done|]. split.
        - intros g. rewrite IHin. split.
          + intros (? & n & Hn & ?). split; [done|]. exists n.
            split; [apply elem_of_app; by left | done].
          + intros (? & n & [Hn|Hn%list_elem_of_singleton]%elem_of_app & Hgn);
              [eauto | subst n; simpl in *; congruence].
        - intros g. rewrite IHgm, filter_app.
          rewrite (filter_cons_False _ x []) by (simpl in *; congruence).
          by rewrite filter_nil, app_nil_r. }
    destruct (String.eqb_spec genus "") as [He|He].
    { subst genus. simpl. split; [done|]. split.
      - intros g. rewrite IHin. split.
        + intros (? & n & Hn & ?). split; [done|]. exists n.
          split; [apply elem_of_app; by left | done].
        + intros (? & n & [Hn|Hn%list_elem_of_singleton]%elem_of_app & Hgn);
            [eauto | subst n; simpl in *; congruence].
      - intros g. rewrite IHgm, filter_app. case_decide; [done|].
        rewrite (filter_cons_False _ x []) by (simpl in *; congruence).
        by rewrite filter_nil, app_nil_r. }
    simpl. split; [|split].
    + case_bool_decide as Hin; [done|].
      apply NoDup_app. split; [done|]. split; [|apply NoDup_singleton].
      intros y Hy Hy'%list_elem_of_singleton. by subst y.
    + intros g. assert (Hq : g ∈ (if bool_decide (genus ∈ genera) then genera
                                    else genera ++ [genus])
                             ↔ g ∈ genera ∨ g = genus).
      { case_bool_decide as Hin.
        - split; [by left | intros [?|Heq]; [done | by subst g]].
        - rewrite elem_of_app, list_elem_of_singleton. done. }
      rewrite Hq, IHin. split.
      * intros [(Hg1 & n & Hn & Hg2)|Heq].
        -- split; [done|]. exists n. split; [apply elem_of_app; by left | done].
        -- subst g. split; [done|]. exists x. split; [apply elem_of_app; right; by left | done].
      * intros (? & n & [Hn|Hn%list_elem_of_singleton]%elem_of_app & Hgn).
        -- left. eauto.
        -- subst n. right. simpl in *. congruence.
    + intros g. rewrite filter_app. destruct (decide (genus = g)) as [<-|Hne].
      * rewrite lookup_insert_eq, IHgm. rewrite !decide_False by done.
        rewrite (filter_cons_True _ x []) by done. rewrite filter_nil.
        destruct (filter _ l) as [|y ys]; simpl; done.
      * rewrite lookup_insert_ne by done. rewrite IHgm.
        rewrite (filter_cons_False _ x []) by (simpl in *; congruence).
        by rewrite filter_nil, app_nil_r.
Qed.

(** ** What the pattern matches *)

Lemma append_cons (c : ascii) (s1 s2 : string) :
  String c s1 +:+ s2 = String c (s1 +:+ s2).
Proof. reflexivity. Qed.

Lemma append_nil_l (s : string) : "" +:+ s = s.
Proof. reflexivity. Qed.

Lemma append_nil_r (s : string) : s +:+ "" = s.
Proof. induction s as [|c s IH]; [done | by rewrite append_cons, IH]. Qed.

Lemma append_assoc (s1 s2 s3 : string) : (s1 +:+ s2) +:+ s3 = s1 +:+ s2 +:+ s3.
Proof. induction s1 as [|c s1 IH]; [done | by rewrite !append_cons, IH]. Qed.

Lemma append_eq_nil (s1 s2 : string) : s1 +:+ s2 = "" → s1 = "" ∧ s2 = "".
Proof. destruct s1; [done | discriminate]. Qed.

Lemma matches_Void (s : string) : matches Void s = false.
Proof. induction s as [|c s IH]; simpl; done. Qed.

Lemma matches_Eps (s : string) : matches Eps s = true ↔ s = "".
Proof.
  destruct s as [|c s]; simpl; [done|]. rewrite matches_Void. split; discriminate.
Qed.

Lemma matches_Alt (a b : regex) (s : string) :
  matches (Alt a b) s = matches a s || matches b s.
Proof. revert a b. induction s as [|c s IH]; intros a b; simpl; [done | apply IH]. Qed.

Lemma matches_Cat (a b : regex) (s : string) :
  matches (Cat a b) s = true
  ↔ ∃ s1 s2, s = s1 +:+ s2 ∧ matches a s1 = true ∧ matches b s2 = true.
Proof.
  revert a b. induction s as [|c s IH]; intros a b; simpl.
  - rewrite andb_true_iff. split.
    + intros [Ha Hb]. by exists "", "".
    + intros (s1 & s2 & Hs & Ha & Hb). symmetry in Hs.
      apply append_eq_nil in Hs as [-> ->]. done.
  - destruct (nullable a) eqn:Hn.
    + rewrite matches_Alt, orb_true_iff, IH. split.
      * intros [(s1 & s2 & -> & Ha & Hb)|Hb].
        -- by exists (String c s1), s2.
        -- by exists "", (String c s).
      * intros (s1 & s2 & Hs & Ha & Hb). destruct s1 as [|c1 s1].
        -- right. rewrite append_nil_l in Hs. subst s2. done.
        -- left. rewrite append_cons in Hs. injection Hs as -> ->. by exists s1, s2.
    + rewrite IH. split.
      * intros (s1 & s2 & -> & Ha & Hb). by exists (String c s1), s2.
      * intros (s1 & s2 & Hs & Ha & Hb). destruct s1 as [|c1 s1].
        -- simpl in Ha. congruence.
        -- rewrite append_cons in Hs. injection Hs as -> ->. by exists s1, s2.
Qed.

Lemma matches_Chr (p : ascii → bool) (s : string) :
  matches (Chr p) s = true ↔ ∃ c, s = String c "" ∧ p c = true.
Proof.
  destruct s as [|c s]; simpl.
  - split; [discriminate | by intros (c & ? & _)].
  - destruct (p c) eqn:Hp.
    + rewrite matches_Eps. split; [intros ->; eauto | by intros (d & [= _ ->] & _)].
    + rewrite matches_Void. split; [discriminate|]. intros (d & [= <- _] & ?). congruence.
Qed.

Lemma matches_Star_class (p : ascii → bool) (s : string) :
  matches (Star (Chr p)) s = true ↔ all_chars p s = true.
Proof.
  induction s as [|c s IH]; [done|].
  change (matches (Star (Chr p)) (String c s))
    with (matches (Cat (if p c then Eps else Void) (Star (Chr p))) s).
  simpl all_chars. rewrite matches_Cat. destruct (p c); simpl.
  - rewrite <- IH. split.
    + intros (s1 & s2 & -> & ->%matches_Eps & Hs). done.
    + intros Hs. by exists "", s.
  - split; [|discriminate]. intros (s1 & s2 & _ & Hv & _). by rewrite matches_Void in Hv.
Qed.

Lemma matches_Plus_class (p : ascii → bool) (s : string) :
  matches (Plus (Chr p)) s = true ↔ s ≠ "" ∧ all_chars p s = true.
Proof.
  unfold Plus. rewrite matches_Cat. split.
  - intros (s1 & s2 & -> & (c & -> & Hc)%matches_Chr & Hs%matches_Star_class).
    rewrite append_cons, append_nil_l. split; [done|]. simpl. by rewrite Hc, Hs.
  - intros [Hne Hall]. destruct s as [|c s]; [done|]. simpl in Hall.
    apply andb_true_iff in Hall as [Hc Hs].
    exists (String c ""), s. split; [done|]. split.
    + apply matches_Chr. eauto.
    + by apply matches_Star_class.
Qed.

Lemma eqc_eq (c d : ascii) : Char.eqc c d = true ↔ d = c.
Proof.
  unfold Char.eqc, Char.code. rewrite Nat.eqb_eq. split; [|by intros ->].
  intros H. by rewrite <- (ascii_nat_embedding d), H, ascii_nat_embedding.
Qed.

Lemma matches_Lit (s0 s : string) : matches (Lit s0) s = true ↔ s = s0.
Proof.
  revert s. induction s0 as [|c s0 IH]; intros s; simpl Lit.
  - apply matches_Eps.
  - rewrite matches_Cat. split.
    + intros (s1 & s2 & -> & (d & -> & Hd%eqc_eq)%matches_Chr & Hs%IH). by subst.
    + intros ->. exists (String c ""), s0. split; [done|]. split.
      * apply matches_Chr. exists c. split; [done|]. by apply eqc_eq.
      * by apply IH.
Qed.

Lemma is_dot_eq (c : ascii) : Char.is_dot c = true ↔ c = "."%char.
Proof. apply (eqc_eq "."%char c). Qed.

(** [[A-Z][a-z]*\.?] *)
Lemma matches_capitalised (tok : string) :
  matches (Cat (Chr Char.is_upper_az)
               (Cat (Star (Chr Char.is_lower_az)) (Opt (Chr Char.is_dot)))) tok = true
  ↔ authority_token tok.
Proof.
  rewrite matches_Cat. split.
  - intros (s1 & s2 & -> & (c & -> & Hc)%matches_Chr & H2).
    apply matches_Cat in H2 as (lows & dot & -> & Hl%matches_Star_class & Hd).
    exists c, lows, dot. split; [done|]. split; [done|]. split; [done|].
    unfold Opt in Hd. rewrite matches_Alt in Hd.
    apply orb_true_iff in Hd as [(d & -> & Hdd%is_dot_eq)%matches_Chr | ->%matches_Eps].
    + right. by subst d.
    + by left.
  - intros (c & lows & dot & -> & Hc & Hl & Hd).
    exists (String c ""), (lows +:+ dot). split; [done|]. split.
    + apply matches_Chr. eauto.
    + apply matches_Cat. exists lows, dot. split; [done|]. split.
      * by apply matches_Star_class.
      * unfold Opt. rewrite matches_Alt. destruct Hd as [->| ->]; [done|].
        apply orb_true_iff. left. apply matches_Chr. exists "."%char. done.
Qed.

Lemma authority_pattern_matches (s : string) :
  matches authority_pattern s = true ↔ authority_suffix s.
Proof.
  unfold authority_pattern. rewrite matches_Cat. split.
  - intros (ws & tok & -> & [Hne Hws]%matches_Plus_class & Htok).
    exists ws, tok. split; [done|]. split; [done|]. split; [done|].
    rewrite !matches_Alt in Htok.
    apply orb_true_iff in Htok as [Htok|Htok];
      [apply orb_true_iff in Htok as [Htok|Htok]|].
    + by apply matches_capitalised.
    + apply matches_Lit in Htok as ->.
      exists "M"%char, "oench", "". split; [done|]. split; [done|]. split; [done|]. by left.
    + apply matches_Lit in Htok as ->.
      exists "L"%char, "", ".". split; [done|]. split; [done|]. split; [done|]. by right.
  - intros (ws & tok & -> & Hne & Hws & Htok).
    exists ws, tok. split; [done|]. split; [by apply matches_Plus_class|].
    rewrite !matches_Alt. apply matches_capitalised in Htok. by rewrite Htok.
Qed.

(** X8. The alternatives [Moench] and [L\.] of the pattern add nothing: what
    they match, [[A-Z][a-z]*\.?] matches already.  The pattern matches
    exactly one or more whitespace characters followed by a capital
    letter, lower-case letters and an optional dot. *)
Theorem authority_alternatives_redundant (s : string) :
  (matches authority_pattern s = true ↔ authority_suffix s)
  ∧ matches authority_pattern s
    = matches (Cat (Plus (Chr Char.is_space))
                   (Cat (Chr Char.is_upper_az)
                        (Cat (Star (Chr Char.is_lower_az)) (Opt (Chr Char.is_dot))))) s.
Proof.
  split; [apply authority_pattern_matches|].
  apply eq_true_iff_eq. rewrite authority_pattern_matches, matches_Cat. split.
  - intros (ws & tok & -> & Hne & Hws & Htok). exists ws, tok.
    split; [done|]. split; [by apply matches_Plus_class | by apply matches_capitalised].
  - intros (ws & tok & -> & [Hne Hws]%matches_Plus_class & Htok%matches_capitalised).
    by exists ws, tok.
Qed.

(** ** What cleaning removes *)

Lemma snoc_cons_cases (c d : ascii) (p' p1 : string) :
  String c p' = p1 +:+ String d "" →
  (p' = "" ∧ p1 = "" ∧ d = c)
  ∨ ∃ p1', p1 = String c p1' ∧ p' = p1' +:+ String d "".
Proof.
  destruct p1 as [|c1 p1]; [rewrite append_nil_l | rewrite append_cons];
    intros [= -> ->]; eauto.
Qed.

Lemma re_sub_decompose (r : regex) (s : string) :
  re_search_to_end r s = true →
  ∃ p tail rest,
    s = p +:+ tail
    ∧ match_to_end r tail = Some rest
    ∧ re_sub_to_end r s = p +:+ rest
    ∧ ∀ p1 c, p = p1 +:+ String c "" → match_to_end r (String c tail) = None.
Proof.
  induction s as [|c s IH]; simpl.
  - destruct (match_to_end r "") as [rest|] eqn:E; [|done]. intros _.
    exists "", "", rest. split; [done|]. split; [done|]. split; [done|].
    intros [|c1 p1] c; discriminate.
  - destruct (match_to_end r (String c s)) as [rest|] eqn:E.
    + intros _. exists "", (String c s), rest. split; [done|]. split; [done|].
      split; [done|]. intros [|c1 p1] d; discriminate.
    + intros (p & tail & rest & -> & Hm & Hsub & Hleft)%IH.
      exists (String c p), tail, rest. split; [done|]. split; [done|].
      split; [by rewrite Hsub|].
      intros p1 d [(-> & -> & ->)|(p1' & -> & Hp)]%snoc_cons_cases.
      * by rewrite append_nil_l in E.
      * by eapply Hleft.
Qed.

Lemma re_search_none (r : regex) (s p tail : string) :
  re_search_to_end r s = false → s = p +:+ tail → match_to_end r tail = None.
Proof.
  revert p. induction s as [|c s IH]; intros p; simpl.
  - destruct (match_to_end r "") eqn:E; [done|]. intros _ Hs. symmetry in Hs.
    by apply append_eq_nil in Hs as [_ ->].
  - destruct (match_to_end r (String c s)) eqn:E; [done|]. intros Hs Hp.
    destruct p as [|c1 p].
    + rewrite append_nil_l in Hp. by subst tail.
    + rewrite append_cons in Hp. injection Hp as -> ->. by eapply IH.
Qed.

Lemma chop_final_newline_space (s s0 : string) :
  chop_final_newline s = Some s0 → ends_with_space s = true.
Proof.
  revert s0. induction s as [|c s IH]; intros s0; simpl; [done|].
  destruct s as [|c' s'].
  - destruct (Char.eqc _ c) eqn:E; [|done]. intros _.
    apply eqc_eq in E. by subst c.
  - destruct (chop_final_newline (String c' s')) as [t|] eqn:E; [|done].
    intros _. by eapply IH.
Qed.

Lemma ends_with_space_app (p tail : string) :
  tail ≠ "" → ends_with_space (p +:+ tail) = ends_with_space tail.
Proof.
  intros Hne. induction p as [|c p IH]; [done|].
  rewrite append_cons. simpl. rewrite IH.
  destruct (p +:+ tail) eqn:E; [|done].
  by apply append_eq_nil in E as [_ ->].
Qed.

Lemma ends_with_space_snoc (p : string) :
  ends_with_space p = true →
  ∃ p1 c, p = p1 +:+ String c "" ∧ Char.is_space c = true.
Proof.
  induction p as [|c p IH]; simpl; [done|]. destruct p as [|c' p'].
  - intros Hc. by exists "", c.
  - intros (p1 & d & -> & Hd)%IH. by exists (String c p1), d.
Qed.

Lemma authority_suffix_grow (c : ascii) (tail : string) :
  Char.is_space c = true → authority_suffix tail → authority_suffix (String c tail).
Proof.
  intros Hc (ws & tok & -> & Hne & Hws & Htok).
  exists (String c ws), tok. split; [done|]. split; [done|]. split; [|done].
  simpl. by rewrite Hc, Hws.
Qed.

Lemma match_to_end_of_matches (r : regex) (s : string) :
  matches r s = true → match_to_end r s = Some "".
Proof. unfold match_to_end. by intros ->. Qed.

(** X9. [clean_scientific_name] on a text: either the stripped text ends in
    whitespace and an authority token, and the result is the stripped
    text without that one suffix; or no suffix of the stripped text is of
    that form, and the result is the stripped text. *)
Theorem clean_removes_one_authority_token (x : string) :
  (∃ ws tok,
     strip x = clean_str x +:+ ws +:+ tok
     ∧ ws ≠ "" ∧ all_chars Char.is_space ws = true ∧ authority_token tok)
  ∨ (clean_str x = strip x
     ∧ ∀ p tail, strip x = p +:+ tail → ¬ authority_suffix tail).
Proof.
  destruct (re_search_to_end authority_pattern (strip x)) eqn:Hs.
  - left.
    destruct (re_sub_decompose _ _ Hs) as (p & tail & rest & Hx & Hm & Hsub & Hleft).
    assert (Htail : matches authority_pattern tail = true ∧ rest = "").
    { unfold match_to_end in Hm.
      destruct (matches authority_pattern tail) eqn:E; [by injection Hm as <-|].
      destruct (chop_final_newline tail) as [t0|] eqn:Ec; [|done].
      exfalso. pose proof (strip_no_trailing x) as Hend.
      rewrite Hx, ends_with_space_app in Hend by (by destruct tail).
      by rewrite (chop_final_newline_space _ _ Ec) in Hend. }
    destruct Htail as [Hmt ->]. rewrite append_nil_r in Hsub.
    assert (Hclean : clean_str x = p).
    { unfold clean_str. rewrite Hsub. apply strip_fixed.
      - pose proof (strip_no_leading x) as Hstart. rewrite Hx in Hstart.
        by destruct p.
      - destruct (ends_with_space p) eqn:Ep; [|done]. exfalso.
        apply ends_with_space_snoc in Ep as (p1 & c & Hp & Hc).
        specialize (Hleft p1 c Hp).
        rewrite match_to_end_of_matches in Hleft; [done|].
        apply authority_pattern_matches, authority_suffix_grow; [done|].
        by apply authority_pattern_matches. }
    apply authority_pattern_matches in Hmt as (ws & tok & -> & Hne & Hws & Htok).
    exists ws, tok. by rewrite Hclean.
  - right. split.
    + unfold clean_str. rewrite (re_sub_no_match _ _ Hs). apply strip_strip.
    + intros p tail Hx Hsuf%authority_pattern_matches.
      pose proof (re_search_none _ _ p tail Hs Hx) as Hnone.
      by rewrite match_to_end_of_matches in Hnone.
Qed.

(** ** The genus of a name *)

Lemma before_first_space_no_space (s : string) :
  has_space_char (before_first_space s) = false.
Proof.
  induction s as [|c s IH]; simpl; [done|].
  destruct (Char.eqc " " c) eqn:E; simpl; [done|]. by rewrite E, IH.
Qed.

(** X10. When [extract_genus] returns a genus, the name is that genus, a space
    character and a rest; the genus holds no space character, so that no
    genus can be extracted from the genus itself. *)
Theorem extracted_genus_is_one_word (s g : string) :
  extract_genus (PyStr s) = Some g →
  (∃ rest, s = g +:+ " " +:+ rest)
  ∧ has_space_char g = false
  ∧ extract_genus (PyStr g) = None.
Proof.
  simpl. unfold extract_genus_str.
  destruct (has_space_char s) eqn:Hs; simpl; [|done]. intros [= <-].
  split; [by apply has_space_char_split|].
  split; [apply before_first_space_no_space|].
  by rewrite before_first_space_no_space.
Qed.

Lemma extracted_genus_is_one_word_witness :
  (∃ rest, "Oryza sativa L." = "Oryza" +:+ " " +:+ rest)
  ∧ has_space_char "Oryza" = false
  ∧ extract_genus (PyStr "Oryza") = None.
Proof.
  apply (extracted_genus_is_one_word "Oryza sativa L." "Oryza"). reflexivity.
Defined.

(** ** The names read from the column *)

Lemma first_occurrences_elem (l : list string) (y : string) :
  y ∈ first_occurrences l ↔ y ∈ l.
Proof.
  induction l as [|x l IH]; simpl; [done|].
  rewrite !elem_of_cons, list_elem_of_filter, IH. split.
  - intros [Hy|[_ Hy]]; [by left | by right].
  - intros [Hy|Hy]; [by left|].
    destruct (decide (y = x)) as [Hyx|Hyx]; [by left | by right].
Qed.

Lemma first_occurrences_NoDup (l : list string) : NoDup (first_occurrences l).
Proof.
  induction l as [|x l IH]; simpl; [constructor|].
  apply NoDup_cons. split.
  - intros [Hne _]%list_elem_of_filter. done.
  - by apply NoDup_filter.
Qed.

Lemma lower_nan : lower "nan" = "nan".
Proof. reflexivity. Qed.

Lemma load_unique_names_elem (column : list string) (n : string) :
  n ∈ load_unique_names column ↔ n ∈ column ∧ n ≠ "" ∧ lower n ≠ "nan".
Proof.
  unfold load_unique_names.
  rewrite list_elem_of_filter, first_occurrences_elem, list_elem_of_fmap. split.
  - intros [[Hne Hlow] (v & Hv & Hin)]. split; [|done].
    destruct (String.eqb_spec v "nan"); [done | by subst n].
  - intros (Hin & Hne & Hlow). split; [done|]. exists n. split; [|done].
    destruct (String.eqb_spec n "nan") as [->|]; [|done].
    by rewrite lower_nan in Hlow.
Qed.

(** X11. Lines 100-101: the names given to the cascade are, without
    repetition, exactly the values of the column that are not empty and
    are not ["nan"] in any mix of cases. *)
Theorem load_unique_names_spec (column : list string) :
  NoDup (load_unique_names column)
  ∧ ∀ n, n ∈ load_unique_names column
         ↔ n ∈ column ∧ n ≠ "" ∧ lower n ≠ "nan".
Proof.
  split; [|apply load_unique_names_elem].
  unfold load_unique_names. apply NoDup_filter, first_occurrences_NoDup.
Qed.



(** ** Only the first candidate is read *)

Lemma bind_ext {A B} (m1 m2 : M A) (f1 f2 : A → M B) (w : world) :
  m1 w = m2 w → (∀ a w', f1 a w' = f2 a w') → (m1 ≫= f1) w = (m2 ≫= f2) w.
Proof. intros Hm Hf. rewrite !bind_run, Hm. by destruct (m2 w). Qed.

Lemma for_each_ext {A} (l : list A) (b1 b2 : A → M unit) (w : world) :
  (∀ x w', b1 x w' = b2 x w') → for_each l b1 w = for_each l b2 w.
Proof.
  intros Hb. revert w. induction l as [|x l IH]; intros w; simpl; [done|].
  apply bind_ext; [apply Hb | intros _ w'; apply IH].
Qed.

Lemma process_item_first_only l q d (it : item) :
  process_item l q d (first_only it) = process_item l q d it.
Proof. unfold process_item, first_only. simpl. by destruct (item_matches it). Qed.

Lemma process_results_first_only resp d l q :
  process_tnrs_results (fmap (M := option) (fmap (M := list) first_only) resp) d l q
  = process_tnrs_results resp d l q.
Proof.
  destruct resp as [items|]; simpl; [|done].
  revert d. induction items as [|it items IH]; intros d; simpl; [done|].
  by rewrite process_item_first_only, IH.
Qed.

Lemma genus_target_first_only (it : item) (t : string) (w : world) :
  genus_target (first_only it) t w = genus_target it t w.
Proof.
  unfold genus_target. apply bind_ext; [done|]. intros r w'.
  unfold first_only. simpl. by destruct (item_matches it).
Qed.

Lemma genus_item_first_only gm (it : item) (w : world) :
  genus_item gm (first_only it) w = genus_item gm it w.
Proof.
  unfold genus_item. simpl. destruct (gm !! item_name it); [|done].
  apply for_each_ext. intros t w'. apply genus_target_first_only.
Qed.

Lemma genus_items_first_only gm (items : list item) (w : world) :
  for_each (first_only <$> items) (genus_item gm) w = for_each items (genus_item gm) w.
Proof.
  revert w. induction items as [|it items IH]; intros w; [done|].
  rewrite fmap_cons. simpl.
  apply bind_ext; [apply genus_item_first_only | intros _ w'; apply IH].
Qed.

Lemma query_first_only svc (names : list string) (w : world) :
  query_ott_tnrs (with_first_only svc) names w
  = match query_ott_tnrs svc names w with
    | Ok r w' => Ok (fmap (M := option) (fmap (M := list) first_only) r) w'
    | Raised e w' => Raised e w'
    end.
Proof. unfold query_ott_tnrs. by destruct names. Qed.

Lemma step1_first_only svc (bs : nat) (names : list string) (w : world) :
  step1 (with_first_only svc) bs names w = step1 svc bs names w.
Proof.
  unfold step1. destruct bs as [|bs']; [done|].
  apply for_each_ext. intros i w'. unfold step1_batch.
  rewrite !bind_run, query_first_only.
  destruct (query_ott_tnrs svc _ w') as [r w''|e w'']; [|done].
  rewrite !bind_run. simpl. by rewrite process_results_first_only.
Qed.

Lemma step2_first_only svc set_to_list (failed_names : list string) (w : world) :
  step2 (with_first_only svc) set_to_list failed_names w
  = step2 svc set_to_list failed_names w.
Proof.
  unfold step2. destruct (foldl clean_step (∅, []) failed_names) as [cmap names].
  apply bind_ext; [|done]. destruct names as [|n names]; [done|].
  rewrite !bind_run, query_first_only.
  destruct (query_ott_tnrs svc _ w) as [r w''|e w'']; [|done].
  rewrite !bind_run. simpl. by rewrite process_results_first_only.
Qed.

Lemma step3_first_only svc (failed_names : list string) (w : world) :
  step3 (with_first_only svc) failed_names w = step3 svc failed_names w.
Proof.
  unfold step3. destruct (foldl genus_step (∅, []) failed_names) as [gm genera].
  apply bind_ext; [|done]. destruct genera as [|g genera]; [done|].
  rewrite !bind_run, query_first_only.
  destruct (query_ott_tnrs svc _ w) as [r w''|e w'']; [|done].
  destruct r as [items|]; [|done]. simpl. apply genus_items_first_only.
Qed.

(** X13. Of the candidates that the service returns for a name, only the first
    is ever read: cutting every response down to its first candidates
    changes neither the outcome of the run nor any record nor any call. *)
Theorem only_first_candidate_counts svc set_to_list (bs : nat) df_empty
    (unique_names : list string) (w : world) :
  cascade_with (with_first_only svc) set_to_list bs df_empty unique_names w
  = cascade_with svc set_to_list bs df_empty unique_names w.
Proof.
  unfold cascade_with. apply bind_ext; [|done].
  unfold stages. destruct unique_names as [|n0 ns]; [done|].
  apply bind_ext; [apply step1_first_only|]. intros _ w1.
  apply bind_ext; [done|]. intros d w2. simpl.
  apply bind_ext.
  - destruct (failed_after_step1 (n0 :: ns) d); [done | apply step2_first_only].
  - intros t' w3. destruct t'; [done | apply step3_first_only].
Qed.

(** ** Stage 3 on one name, as a whole *)

Lemma genus_stage_outcome_witness :
  ∃ w', step3 (svc_hit_after_first "Family") ["Oryza sativa L."] world_after_stage1
        = Ok () w'
        ∧ all_results w' !! "Oryza sativa L."
          = Some (record_of_match (a_candidate "Oryza" 42 "Family") "Oryza" Genus).
Proof.
  destruct (genus_stage_outcome (svc_hit_after_first "Family") ["Oryza sativa L."]
              world_after_stage1 "Oryza sativa L." "Oryza"
              (empty_record "Oryza sativa L." NoMatchInitial)
              [] [] (mk_item "Oryza" [a_candidate "Oryza" 42 "Family"])
              (a_candidate "Oryza" 42 "Family") [])
    as (w' & Hrun & Hrec).
  - intros x Hx%list_elem_of_singleton. subst x. vm_compute. eauto.
  - left.
  - vm_compute. reflexivity.
  - reflexivity.
  - vm_compute. reflexivity.
  - discriminate.
  - vm_compute. reflexivity.
  - reflexivity.
  - intros it Hit. by apply elem_of_nil in Hit.
  - reflexivity.
  - exists w'. split; [exact Hrun|]. rewrite Hrec. vm_compute. reflexivity.
Defined.

(** ** A failed call at stage 2 and at stage 3 *)

Lemma process_results_no_candidates (items : list item) d l q :
  l ≠ SpeciesOriginal →
  (∀ it, it ∈ items → item_matches it = []) →
  process_tnrs_results (Some items) d l q = d.
Proof.
  intros Hl. simpl. revert d. induction items as [|it items IH]; intros d Hall; [done|].
  simpl. assert (Hstep : process_item l q d it = d).
  { unfold process_item. rewrite (Hall it) by left.
    rewrite (bool_decide_eq_false_2 (l = SpeciesOriginal)) by done. simpl.
    by destruct (lacks_id _). }
  rewrite Hstep. apply IH. intros it' Hit'. apply Hall. by right.
Qed.

(** X15. At stage 2 a failed call has the effect of a response without
    candidates: whether the call for the cleaned names fails or returns
    items that all have no candidate, stage 2 ends in the same way, with
    the same records and the same names still failed. *)
Theorem stage2_failure_is_no_candidates svc svc' set_to_list
    (failed_names : list string) (items : list item) (w : world) :
  svc (length (calls w)) (set_to_list (foldl clean_step (∅, []) failed_names).2) = None →
  svc' (length (calls w)) (set_to_list (foldl clean_step (∅, []) failed_names).2)
    = Some items →
  (∀ it, it ∈ items → item_matches it = []) →
  step2 svc set_to_list failed_names w = step2 svc' set_to_list failed_names w.
Proof.
  unfold step2. destruct (foldl clean_step (∅, []) failed_names) as [cmap names].
  simpl. intros Hnone Hsome Hall. apply bind_ext; [|done].
  destruct names as [|n names]; [done|].
  unfold query_ott_tnrs. rewrite !bind_run.
  destruct (set_to_list (n :: names)) as [|x xs]; [done|].
  rewrite Hnone, Hsome, !bind_run. simpl.
  pose proof (process_results_no_candidates items (all_results w) SpeciesCleaned
                (Some cmap) ltac:(done) Hall) as Hsame.
  simpl in Hsame. by rewrite Hsame.
Qed.

Lemma stage2_failure_is_no_candidates_witness :
  step2 svc_failure remove_dups ["Oryza sativa L."] world_after_stage1
  = step2 svc_no_candidates remove_dups ["Oryza sativa L."] world_after_stage1.
Proof.
  apply (stage2_failure_is_no_candidates svc_failure svc_no_candidates remove_dups
           ["Oryza sativa L."] [mk_item "Oryza sativa" []] world_after_stage1).
  - reflexivity.
  - vm_compute. reflexivity.
  - intros it Hit%list_elem_of_singleton. by subst it.
Defined.

(** X16. At stage 3 a failed call is not marked as a genus failure: a
    still-failed name with a genus, whose level is neither [Genus] nor
    [NoMatchFinalGenusFailed], ends the stage with its earlier record at
    level [NoMatchFinal] when the genus call fails. *)
Theorem stage3_failure_gives_no_match_final svc (failed_names : list string)
    (w : world) (t g : string) (r : record) :
  recorded failed_names w → t ∈ failed_names →
  all_results w !! t = Some r → ott_id r = None →
  level r ∉ [Genus; NoMatchFinalGenusFailed] →
  extract_genus (PyStr t) = Some g → g ≠ "" →
  svc (length (calls w)) (foldl genus_step (∅, []) failed_names).2 = None →
  ∃ w', step3 svc failed_names w = Ok () w'
        ∧ all_results w' !! t = Some (with_level NoMatchFinal r).
Proof.
  intros Hrec Ht Hr Hid Hlv Hg Hne Hresp.
  destruct (step3_record svc failed_names w t g r Hrec Ht Hr Hg Hne)
    as (w' & Hrun & Hfin & _).
  exists w'. split; [done|]. rewrite Hfin, Hresp.
  unfold stage3_effect, genus_items_effect, final_effect, final_level. simpl.
  rewrite (bool_decide_eq_true_2 _ Hid).
  by rewrite (bool_decide_eq_false_2 _ Hlv).
Qed.

Lemma stage3_failure_gives_no_match_final_witness :
  ∃ w', step3 svc_failure ["Oryza sativa L."] world_after_stage1 = Ok () w'
        ∧ all_results w' !! "Oryza sativa L."
          = Some (empty_record "Oryza sativa L." NoMatchFinal).
Proof.
  apply (stage3_failure_gives_no_match_final svc_failure ["Oryza sativa L."]
           world_after_stage1 "Oryza sativa L." "Oryza"
           (empty_record "Oryza sativa L." NoMatchInitial)).
  - intros x Hx%list_elem_of_singleton. subst x. vm_compute. eauto.
  - left.
  - vm_compute. reflexivity.
  - reflexivity.
  - simpl. rewrite !elem_of_cons, elem_of_nil. intros [H|[H|[]]]; discriminate H.
  - vm_compute. reflexivity.
  - discriminate.
  - reflexivity.
Defined.
